(** * Renovation allocation: the MIP model builder and the solution formatter

    A shallow embedding of [src/main.go] (package main of
    nextmv-renovation-allocation): the function [solver], which builds a
    mixed integer program from the input, hands it to the external solver
    and formats the answer, and the function [format], which maps the
    values of the decision variables back to (property, renovation)
    assignments.

    Go values are modelled as follows.
    - [float64] is [spec_float] of the Standard Library (binary64: a sign,
      a mantissa and an exponent, two zeros, two infinities, NaN).
    - [int] is a 64-bit integer, modelled as [Z].
    - slices are lists; a map from string to slice is a [gmap string (list _)];
      the nil slice and the empty slice are both [[]] (they have the same
      length and the same elements, and [omitempty] treats them alike).
    - a run-time panic is the [Panic] result of the monad [M].
    - the statements of a function body that mutate an object (the model,
      the map of variables, the slice [assigned]) are explicit state
      passing in the monad [M]. *)

From Stdlib Require Import ZArith QArith Qabs Lia Lqa.
From Stdlib Require Import Floats.SpecFloat.
From stdpp Require Import gmap strings list fin_maps sorting.

Local Open Scope Z_scope.

(** ** float64 *)

Module Float64.

Definition float64 := spec_float.

Definition prec : Z := 53.
Definition emax : Z := 1024.

(** A finite float is a binary64 value when its mantissa has at most 53
    bits and the exponent is the canonical one. *)
Definition valid (x : float64) : bool := valid_binary prec emax x.

Definition is_finite (x : float64) : bool :=
  match x with
  | S754_zero _ | S754_finite _ _ _ => true
  | _ => false
  end.

(** The conversion [float64(n)] of an integer: round to nearest, ties to
    even. *)
Definition of_int (n : Z) : float64 := binary_normalize prec emax n 0 false.

(** The exact rational value of a finite float; 0 on infinities and NaN,
    which have none. *)
Definition to_Q (x : float64) : Q :=
  match x with
  | S754_finite s m e =>
      let z := if s then Zneg m else Zpos m in
      if 0 <=? e then inject_Z (z * 2 ^ e) else z # Z.to_pos (2 ^ (- e))
  | _ => 0%Q
  end.

(** The float with the value of the positive integer [p], for [p] of at
    most 53 bits: the mantissa is shifted left to 53 bits. *)
Definition of_pos (s : bool) (p : positive) : float64 :=
  let '(m, e) := shl_align p 0 (Zpos (digits2_pos p) - prec) in
  S754_finite s m e.

(** [math.Round]: the nearest integer, rounding half away from zero;
    [Round(±0) = ±0], [Round(±Inf) = ±Inf], [Round(NaN) = NaN]. *)
Definition Round (x : float64) : float64 :=
  match x with
  | S754_finite s m e =>
      if 0 <=? e then x
      else match (Zpos m + 2 ^ (- e - 1)) / 2 ^ (- e) with
           | Zpos p => of_pos s p
           | _ => S754_zero s
           end
  | _ => x
  end.

Definition int_min : Z := - 2 ^ 63.
Definition int_max : Z := 2 ^ 63 - 1.

Definition in_int_range (z : Z) : bool := (int_min <=? z) && (z <=? int_max).

(** The integer part of a finite float (the fraction is discarded). *)
Definition trunc (x : float64) : Z :=
  match x with
  | S754_finite s m e =>
      let t := if 0 <=? e then Zpos m * 2 ^ e else Zpos m / 2 ^ (- e) in
      if s then - t else t
  | _ => 0
  end.

Section Conversion.
(** A conversion [int(x)] of a float the type [int] cannot represent
    succeeds, with a value the language leaves to the implementation:
    that value is a parameter. *)
Variable int_overflow : float64 -> Z.

Definition to_int (x : float64) : Z :=
  if is_finite x && in_int_range (trunc x) then trunc x else int_overflow x.
End Conversion.

(** A finite float above zero. *)
Definition positive (x : float64) : bool :=
  match x with
  | S754_finite false _ _ => true
  | _ => false
  end.

(** The constants [1] and [3.0] of the source. *)
Definition one : float64 := Eval vm_compute in of_int 1.
Definition three : float64 := Eval vm_compute in of_int 3.

(** The binary64 value nearest to 0.999999. *)
Definition near_one : float64 := S754_finite false 9007190247541737 (-53).

End Float64.

Export Float64(float64).

(** ** Run-time panics and the state monad of a function body *)

Inductive panic := IndexOutOfRange | NilDereference.

Inductive result (A : Type) :=
| Ok (a : A)
| Panic (p : panic).
Arguments Ok {A} a.
Arguments Panic {A} p.

Definition M (S A : Type) : Type := S -> result (A * S).

Definition ret {S A} (a : A) : M S A := fun s => Ok (a, s).

Definition bind {S A B} (c : M S A) (k : A -> M S B) : M S B :=
  fun s => match c s with
           | Ok (a, s') => k a s'
           | Panic p => Panic p
           end.

(** A computation that does not touch the state. *)
Definition lift {S A} (r : result A) : M S A :=
  fun s => match r with
           | Ok a => Ok (a, s)
           | Panic p => Panic p
           end.

Definition gets {S A} (f : S -> A) : M S A := fun s => Ok (f s, s).
Definition modify {S} (f : S -> S) : M S unit := fun s => Ok (tt, f s).

Declare Scope go_scope.
Delimit Scope go_scope with go.
Notation "'let*' x ':=' c 'in' k" := (bind c (fun x => k))
  (at level 10, x name, c at level 100, k at level 200) : go_scope.
Notation "c ';;' k" := (bind c (fun _ => k))
  (at level 100, k at level 200, right associativity) : go_scope.

(** ** The input and output types of the source *)

Module Renovation.
Record t := { ID : string; Effect : float64; Cost : float64 }.
End Renovation.

Module Property.
Record t := { ID : string; Renovations : list Renovation.t }.
End Property.

Record input := { Properties : list Property.t; Budget : Z }.

Module assignments.
Record t := {
  Property : string;
  RenovationID : string;
  Cost : float64;
  Effect : float64
}.
End assignments.

Record solution := { Assignments : list assignments.t }.

(** ** The interface of the MIP library

    The package [mip] of the SDK is an external collaborator; only the
    part of its interface the source calls is modelled. *)

Module mip.

(** Modelled from the spec: a decision variable of the model, an interface
    value. A variable is known by its index, the number of variables the
    model had when it was created; the source only creates binary ones.
    [nil_Var] is the nil interface value, the zero value of the elements of
    a slice made by [make([]mip.Var, n)]. *)
Inductive Var := nil_Var | bool_Var (index : nat).

(** Modelled from the spec: the comparators of a linear constraint. *)
Inductive Sense := LessThanOrEqual | Equal | GreaterThanOrEqual.

(** Modelled from the spec: a term, a coefficient and a variable. *)
Record Term := { Coefficient : float64; TermVar : Var }.

(** Modelled from the spec: a linear constraint, a comparator, a
    right-hand side and the terms in the order they were added. *)
Record Constraint := {
  ConstraintSense : Sense;
  RightHandSide : float64;
  Terms : list Term
}.

(** Modelled from the spec: the linear objective and its sense. *)
Record Objective := { IsMaximize : bool; ObjectiveTerms : list Term }.

(** Modelled from the spec: a model, the number of its variables (all
    binary here), its one objective and its constraints in the order they
    were created. *)
Record Model := {
  Vars : nat;
  TheObjective : Objective;
  Constraints : list Constraint
}.

(** Modelled from the spec: [mip.NewModel()], the empty model. *)
Definition NewModel : Model :=
  {| Vars := 0;
     TheObjective := {| IsMaximize := false; ObjectiveTerms := [] |};
     Constraints := [] |}.

(** Modelled from the spec: [m.Objective().SetMaximize()]. *)
Definition SetMaximize (m : Model) : Model :=
  {| Vars := Vars m;
     TheObjective := {| IsMaximize := true;
                        ObjectiveTerms := ObjectiveTerms (TheObjective m) |};
     Constraints := Constraints m |}.

(** Modelled from the spec: [m.NewConstraint(sense, rhs)] adds a constraint
    without terms and returns a reference to it, here its position. *)
Definition NewConstraint (sense : Sense) (rhs : float64) (m : Model) : nat * Model :=
  (length (Constraints m),
   {| Vars := Vars m;
      TheObjective := TheObjective m;
      Constraints := Constraints m ++
        [{| ConstraintSense := sense; RightHandSide := rhs; Terms := [] |}] |}).

(** Modelled from the spec: [m.NewBool()] creates a new binary variable. *)
Definition NewBool (m : Model) : Var * Model :=
  (bool_Var (Vars m),
   {| Vars := S (Vars m);
      TheObjective := TheObjective m;
      Constraints := Constraints m |}).

(** Modelled from the spec: [m.Objective().NewTerm(coefficient, variable)]
    adds a term to the objective. *)
Definition Objective_NewTerm (coefficient : float64) (variable : Var) (m : Model) : Model :=
  {| Vars := Vars m;
     TheObjective :=
       {| IsMaximize := IsMaximize (TheObjective m);
          ObjectiveTerms := ObjectiveTerms (TheObjective m) ++
            [{| Coefficient := coefficient; TermVar := variable |}] |};
     Constraints := Constraints m |}.

Definition add_term (t : Term) (c : Constraint) : Constraint :=
  {| ConstraintSense := ConstraintSense c;
     RightHandSide := RightHandSide c;
     Terms := Terms c ++ [t] |}.

(** Modelled from the spec: [c.NewTerm(coefficient, variable)] adds a term
    to the constraint that [c] refers to. The builder gives every term of
    a constraint a variable of its own, so that what the library does with
    two terms of one variable does not matter here. *)
Definition Constraint_NewTerm (c : nat) (coefficient : float64) (variable : Var)
    (m : Model) : Model :=
  {| Vars := Vars m;
     TheObjective := TheObjective m;
     Constraints :=
       alter (add_term {| Coefficient := coefficient; TermVar := variable |})
             c (Constraints m) |}.

(** Modelled from the spec: the limits of a run, of which the source
    reads the maximum duration (a [time.Duration], in nanoseconds). *)
Record Limits := { Duration : Z }.

(** Modelled from the spec: the verbosity levels of the solver. *)
Inductive Verbosity := Off | Low | Medium | High.

(** Modelled from the spec: what the source reads of a [mip.Solution], the
    two status queries and the value of a variable, by index. *)
Record Solution := {
  IsOptimal : bool;
  IsSubOptimal : bool;
  Values : nat -> float64
}.

(** [solverSolution.Value(v)]: the library reads the index of [v], which
    for the nil interface value is a nil dereference. *)
Definition Value (s : Solution) (v : Var) : result float64 :=
  match v with
  | bool_Var k => Ok (Values s k)
  | nil_Var => Panic NilDereference
  end.

End mip.

(** The options for the solver. *)
Record options := { Limits : mip.Limits }.

(** ** The model-building part of [solver] (lines 65 to 109) *)

(** The objects the loop mutates: the model (the variable [m] of the
    source) and the map [propertyRenovationVariables]. *)
Record build_state := {
  model : mip.Model;
  propertyRenovationVariables : gmap string (list mip.Var)
}.

Local Open Scope go_scope.

Definition on_model {A} (f : mip.Model -> A * mip.Model) : M build_state A :=
  fun s => let '(a, m') := f (model s) in
           Ok (a, {| model := m'; propertyRenovationVariables := propertyRenovationVariables s |}).

Definition update_model (f : mip.Model -> mip.Model) : M build_state unit :=
  on_model (fun m => (tt, f m)).

(** [vars[id][i]]: a missing key gives the nil slice, and an index that is
    not below the length panics. *)
Definition slice_index (vars : gmap string (list mip.Var)) (id : string) (i : nat)
  : result mip.Var :=
  match default [] (vars !! id) !! i with
  | Some v => Ok v
  | None => Panic IndexOutOfRange
  end.

(** [propertyRenovationVariables[id][i]] as an expression. *)
Definition read_var (id : string) (i : nat) : M build_state mip.Var :=
  let* vars := gets propertyRenovationVariables in
  lift (slice_index vars id i).

(** [propertyRenovationVariables[id][i] = v]: the element of the slice the
    map holds is overwritten. *)
Definition write_var (id : string) (i : nat) (v : mip.Var) : M build_state unit :=
  let* vars := gets propertyRenovationVariables in
  lift (slice_index vars id i) ;;
  modify (fun s => {| model := model s;
                      propertyRenovationVariables :=
                        alter (fun l => <[i := v]> l) id (propertyRenovationVariables s) |}).

(** [propertyRenovationVariables[id] = make([]mip.Var, n)]. *)
Definition make_vars (id : string) (n : nat) : M build_state unit :=
  modify (fun s => {| model := model s;
                      propertyRenovationVariables :=
                        <[id := replicate n mip.nil_Var]> (propertyRenovationVariables s) |}).

(** The inner loop, [for i, Renovation := range property.Renovations], from
    index [i] on. *)
Fixpoint renovations_loop (id : string) (budgetConstraint countRenovationConstraint : nat)
    (i : nat) (renovations : list Renovation.t) : M build_state unit :=
  match renovations with
  | [] => ret tt
  | Renovation :: rest =>
      let* v := on_model mip.NewBool in
      write_var id i v ;;
      let* x := read_var id i in
      update_model (mip.Objective_NewTerm (Renovation.Effect Renovation) x) ;;
      let* x := read_var id i in
      update_model (mip.Constraint_NewTerm budgetConstraint (Renovation.Cost Renovation) x) ;;
      let* x := read_var id i in
      update_model (mip.Constraint_NewTerm countRenovationConstraint Float64.one x) ;;
      renovations_loop id budgetConstraint countRenovationConstraint (S i) rest
  end.

(** The outer loop, [for _, property := range input.Properties]. *)
Fixpoint properties_loop (budgetConstraint : nat) (properties : list Property.t)
  : M build_state unit :=
  match properties with
  | [] => ret tt
  | property :: rest =>
      make_vars (Property.ID property) (length (Property.Renovations property)) ;;
      let* countRenovationConstraint :=
        on_model (mip.NewConstraint mip.LessThanOrEqual Float64.three) in
      renovations_loop (Property.ID property) budgetConstraint countRenovationConstraint
                       0 (Property.Renovations property) ;;
      properties_loop budgetConstraint rest
  end.

(** Lines 65 to 109 of [solver]: the model and the map of variables. *)
Definition solver_model (input : input) : M build_state unit :=
  update_model mip.SetMaximize ;;
  let* budgetConstraint :=
    on_model (mip.NewConstraint mip.LessThanOrEqual (Float64.of_int (Budget input))) in
  properties_loop budgetConstraint (Properties input).

Definition build (input : input) : result (mip.Model * gmap string (list mip.Var)) :=
  match solver_model input {| model := mip.NewModel; propertyRenovationVariables := ∅ |} with
  | Ok (_, s) => Ok (model s, propertyRenovationVariables s)
  | Panic p => Panic p
  end.

(** ** The model and the map of variables in closed form *)

(** The renovations of all properties, in input order: the [k]-th one is
    the renovation of the [k]-th decision variable. *)
Definition all_renovations (properties : list Property.t) : list Renovation.t :=
  concat (Property.Renovations <$> properties).

(** One term per renovation, for the variables [first], [first + 1], ... *)
Fixpoint terms_of (coef : Renovation.t -> float64) (first : nat)
    (renovations : list Renovation.t) : list mip.Term :=
  match renovations with
  | [] => []
  | r :: rest =>
      {| mip.Coefficient := coef r; mip.TermVar := mip.bool_Var first |}
        :: terms_of coef (S first) rest
  end.

Definition vars_of (first n : nat) : list mip.Var := mip.bool_Var <$> seq first n.

Definition add_terms (ts : list mip.Term) (c : mip.Constraint) : mip.Constraint :=
  {| mip.ConstraintSense := mip.ConstraintSense c;
     mip.RightHandSide := mip.RightHandSide c;
     mip.Terms := mip.Terms c ++ ts |}.

(** The count constraints of the properties, the first variable of the
    first property being [first]. *)
Fixpoint count_constraints (first : nat) (properties : list Property.t)
  : list mip.Constraint :=
  match properties with
  | [] => []
  | p :: rest =>
      {| mip.ConstraintSense := mip.LessThanOrEqual;
         mip.RightHandSide := Float64.three;
         mip.Terms := terms_of (fun _ => Float64.one) first (Property.Renovations p) |}
        :: count_constraints (first + length (Property.Renovations p)) rest
  end.

(** The map of variables after the properties, each insertion replacing
    what the map held for that ID. *)
Fixpoint index_from (first : nat) (properties : list Property.t)
    (vars : gmap string (list mip.Var)) : gmap string (list mip.Var) :=
  match properties with
  | [] => vars
  | p :: rest =>
      index_from (first + length (Property.Renovations p)) rest
        (<[Property.ID p := vars_of first (length (Property.Renovations p))]> vars)
  end.

Definition model_of (input : input) : mip.Model :=
  let rs := all_renovations (Properties input) in
  {| mip.Vars := length rs;
     mip.TheObjective :=
       {| mip.IsMaximize := true;
          mip.ObjectiveTerms := terms_of Renovation.Effect 0 rs |};
     mip.Constraints :=
       {| mip.ConstraintSense := mip.LessThanOrEqual;
          mip.RightHandSide := Float64.of_int (Budget input);
          mip.Terms := terms_of Renovation.Cost 0 rs |}
         :: count_constraints 0 (Properties input) |}.

Definition index_of (input : input) : gmap string (list mip.Var) :=
  index_from 0 (Properties input) ∅.

(** The index of the first decision variable of the [i]-th property: the
    number of renovations of the properties before it. *)
Definition offset (properties : list Property.t) (i : nat) : nat :=
  length (all_renovations (take i properties)).

(** The variable with index [k] occurs in exactly one term of [ts], and
    that term has the coefficient [coefficient]. *)
Definition occurs_once (ts : list mip.Term) (k : nat) (coefficient : float64) : Prop :=
  exists j,
    ts !! j = Some {| mip.Coefficient := coefficient; mip.TermVar := mip.bool_Var k |} /\
    forall j' t, ts !! j' = Some t -> mip.TermVar t = mip.bool_Var k -> j' = j.

(** The variable with index [k] occurs in some term of [ts]. *)
Definition occurs (ts : list mip.Term) (k : nat) : Prop :=
  exists j t, ts !! j = Some t /\ mip.TermVar t = mip.bool_Var k.

(** ** The function [format] (lines 148 to 182) *)

(** What [format] can reach: its three arguments and its local slice
    [assigned]. *)
Record frame := {
  frame_input : input;
  frame_solverSolution : mip.Solution;
  frame_propertyRenovationVariables : gmap string (list mip.Var);
  assigned : list assignments.t
}.

Definition set_assigned (a : list assignments.t) (fr : frame) : frame :=
  {| frame_input := frame_input fr;
     frame_solverSolution := frame_solverSolution fr;
     frame_propertyRenovationVariables := frame_propertyRenovationVariables fr;
     assigned := a |}.

(** [input.Properties[i].Renovations[j]]. *)
Definition renovation_at (input : input) (i j : nat) : result Renovation.t :=
  match Properties input !! i with
  | Some p =>
      match Property.Renovations p !! j with
      | Some r => Ok r
      | None => Panic IndexOutOfRange
      end
  | None => Panic IndexOutOfRange
  end.

Section Format.
Variable int_overflow : float64 -> Z.

(** [int(math.Round(x))]. *)
Definition rounded (x : float64) : Z :=
  Float64.to_int int_overflow (Float64.Round x).

(** The body of the inner loop for the [j]-th renovation of [property],
    the [i]-th property. *)
Definition format_step (i : nat) (property : Property.t) (j : nat) : M frame unit :=
  let* vars := gets frame_propertyRenovationVariables in
  let* v := lift (slice_index vars (Property.ID property) j) in
  let* solverSolution := gets frame_solverSolution in
  let* x := lift (mip.Value solverSolution v) in
  if rounded x <? 1 then ret tt
  else
    let* input := gets frame_input in
    let* r_cost := lift (renovation_at input i j) in
    let* r_effect := lift (renovation_at input i j) in
    let* r_id := lift (renovation_at input i j) in
    modify (fun fr =>
      set_assigned (assigned fr ++
        [{| assignments.Cost := Renovation.Cost r_cost;
            assignments.Effect := Renovation.Effect r_effect;
            assignments.Property := Property.ID property;
            assignments.RenovationID := Renovation.ID r_id |}]) fr).

(** [for j := range property.Renovations], from index [j] on. *)
Fixpoint format_renovations (i : nat) (property : Property.t) (j : nat)
    (renovations : list Renovation.t) : M frame unit :=
  match renovations with
  | [] => ret tt
  | _ :: rest =>
      format_step i property j ;;
      format_renovations i property (S j) rest
  end.

(** [for i, property := range input.Properties], from index [i] on. *)
Fixpoint format_properties (i : nat) (properties : list Property.t) : M frame unit :=
  match properties with
  | [] => ret tt
  | property :: rest =>
      format_renovations i property 0 (Property.Renovations property) ;;
      format_properties (S i) rest
  end.

Definition usable (s : mip.Solution) : bool :=
  mip.IsOptimal s || mip.IsSubOptimal s.

Definition format_body : M frame solution :=
  let* solverSolution := gets frame_solverSolution in
  if negb (mip.IsOptimal solverSolution) && negb (mip.IsSubOptimal solverSolution)
  then ret {| Assignments := [] |}
  else
    modify (set_assigned []) ;;
    let* input := gets frame_input in
    format_properties 0 (Properties input) ;;
    let* assigned := gets assigned in
    ret {| Assignments := assigned |}.

Definition enter (input : input) (solverSolution : mip.Solution)
    (vars : gmap string (list mip.Var)) : frame :=
  {| frame_input := input;
     frame_solverSolution := solverSolution;
     frame_propertyRenovationVariables := vars;
     assigned := [] |}.

Definition format (input : input) (solverSolution : mip.Solution)
    (propertyRenovationVariables : gmap string (list mip.Var)) : result solution :=
  match format_body (enter input solverSolution propertyRenovationVariables) with
  | Ok (s, _) => Ok s
  | Panic p => Panic p
  end.

End Format.

(** ** The assignments of [format] as a function of its arguments *)

(** The record [format] appends for the renovation [r] of [p]. *)
Definition assignment_of (p : Property.t) (r : Renovation.t) : assignments.t :=
  {| assignments.Cost := Renovation.Cost r;
     assignments.Effect := Renovation.Effect r;
     assignments.Property := Property.ID p;
     assignments.RenovationID := Renovation.ID r |}.

(** The index of the variable the map holds for the [j]-th renovation of
    the property with ID [id], when it holds one. *)
Definition var_of (vars : gmap string (list mip.Var)) (id : string) (j : nat) : option nat :=
  match default [] (vars !! id) !! j with
  | Some (mip.bool_Var k) => Some k
  | _ => None
  end.

(** The map has a variable for every renovation of the property [p]. *)
Definition covers_property (vars : gmap string (list mip.Var)) (p : Property.t) : bool :=
  forallb (fun j => bool_decide (is_Some (var_of vars (Property.ID p) j)))
          (seq 0 (length (Property.Renovations p))).

(** The map has a variable for every (property, renovation) pair. *)
Definition covers (input : input) (vars : gmap string (list mip.Var)) : bool :=
  forallb (covers_property vars) (Properties input).

(** The ID of every property is the ID of no other property. *)
Definition unique_ids (input : input) : Prop :=
  NoDup (Property.ID <$> Properties input).

Section Collect.
Variable int_overflow : float64 -> Z.
Variable solverSolution : mip.Solution.
Variable vars : gmap string (list mip.Var).

(** The pair is selected: its variable has a value that rounds to 1 or
    more. *)
Definition is_selected (p : Property.t) (j : nat) : bool :=
  match var_of vars (Property.ID p) j with
  | Some k => 1 <=? rounded int_overflow (mip.Values solverSolution k)
  | None => false
  end.

(** The assignments of the renovations [rs] of [p], the first of which is
    the [j]-th, or the first panic. *)
Fixpoint collect (p : Property.t) (j : nat) (rs : list Renovation.t)
  : result (list assignments.t) :=
  match rs with
  | [] => Ok []
  | r :: rest =>
      match slice_index vars (Property.ID p) j with
      | Panic e => Panic e
      | Ok v =>
          match mip.Value solverSolution v with
          | Panic e => Panic e
          | Ok x =>
              match collect p (S j) rest with
              | Panic e => Panic e
              | Ok tl =>
                  Ok ((if rounded int_overflow x <? 1 then [] else [assignment_of p r]) ++ tl)
              end
          end
      end
  end.

Fixpoint collect_properties (ps : list Property.t) : result (list assignments.t) :=
  match ps with
  | [] => Ok []
  | p :: rest =>
      match collect p 0 (Property.Renovations p) with
      | Panic e => Panic e
      | Ok l =>
          match collect_properties rest with
          | Panic e => Panic e
          | Ok tl => Ok (l ++ tl)
          end
      end
  end.

(** The selected renovations among [rs], in order. *)
Fixpoint selected_from (p : Property.t) (j : nat) (rs : list Renovation.t)
  : list assignments.t :=
  match rs with
  | [] => []
  | r :: rest =>
      (if is_selected p j then [assignment_of p r] else []) ++ selected_from p (S j) rest
  end.

(** What [format] returns for one property, and for all of them. *)
Definition selected_of (p : Property.t) : list assignments.t :=
  selected_from p 0 (Property.Renovations p).

Definition selected_assignments (input : input) : list assignments.t :=
  concat (selected_of <$> Properties input).

(** The positions (property index, renovation index) of the selected
    pairs, in the order [format] visits them. *)
Fixpoint positions_from (i : nat) (p : Property.t) (j : nat) (rs : list Renovation.t)
  : list (nat * nat) :=
  match rs with
  | [] => []
  | _ :: rest =>
      (if is_selected p j then [(i, j)] else []) ++ positions_from i p (S j) rest
  end.

Fixpoint selected_positions_from (i : nat) (ps : list Property.t) : list (nat * nat) :=
  match ps with
  | [] => []
  | p :: rest =>
      positions_from i p 0 (Property.Renovations p) ++ selected_positions_from (S i) rest
  end.

Definition selected_positions (input : input) : list (nat * nat) :=
  selected_positions_from 0 (Properties input).

End Collect.

(** All (property, renovation) pairs as assignments, in input order. *)
Definition all_assignments (input : input) : list assignments.t :=
  concat ((fun p => assignment_of p <$> Property.Renovations p) <$> Properties input).

(** Input order on positions: by property, then by renovation. *)
Definition position_lt (a b : nat * nat) : Prop :=
  (a.1 < b.1)%nat \/ (a.1 = b.1 /\ (a.2 < b.2)%nat).

(** The record of the pair at a position of the input. *)
Definition assignment_at (input : input) (ij : nat * nat) : option assignments.t :=
  match Properties input !! ij.1 with
  | Some p => assignment_of p <$> Property.Renovations p !! ij.2
  | None => None
  end.

(** The index of the last property with the ID [id]. *)
Fixpoint last_with_id (id : string) (ps : list Property.t) : option nat :=
  match ps with
  | [] => None
  | p :: rest =>
      match last_with_id id rest with
      | Some i => Some (S i)
      | None => if decide (Property.ID p = id) then Some 0%nat else None
      end
  end.

(** ** The function [solver] (lines 63 to 145) *)

Module schema.

(** Modelled from the spec: the output envelope [schema.Output], with the
    solutions and the run statistics the reporting layer adds; the zero
    value [schema.Output{}] has neither. *)
Record Output (Statistics : Type) := {
  Solutions : list solution;
  Statistics_ : option Statistics
}.
Arguments Solutions {Statistics} o.
Arguments Statistics_ {Statistics} o.

Definition zero {Statistics : Type} : Output Statistics :=
  {| Solutions := []; Statistics_ := None |}.

End schema.

(** The calls [solver] makes to the solver engine and to [format], in the
    order they are made. *)
Inductive call :=
| call_NewSolver
| call_SetMaximumDuration
| call_SetMIPGapRelative
| call_Solve
| call_format.

Definition log (c : call) : M (list call) unit := modify (fun t => t ++ [c]).

Section Solver.
Variable int_overflow : float64 -> Z.

(** The external collaborators: Go errors, the solver engine with its
    options, and the reporting layer. *)
Variables error Solver SolveOptions Statistics CustomResultStatistics : Type.
Variable mip_NewSolver : string -> mip.Model -> Solver + error.
Variable mip_NewSolveOptions : SolveOptions.
Variable SetMaximumDuration : Z -> SolveOptions -> SolveOptions * option error.
Variable SetMIPGapRelative : float64 -> SolveOptions -> SolveOptions * option error.
Variable SetVerbosity : mip.Verbosity -> SolveOptions -> SolveOptions.
Variable Solve : Solver -> SolveOptions -> mip.Solution + error.
Variable mip_Format : options -> solution -> mip.Solution -> schema.Output Statistics.
Variable mip_DefaultCustomResultStatistics :
  mip.Model -> mip.Solution -> CustomResultStatistics.
Variable set_Result_Custom : Statistics -> CustomResultStatistics -> result Statistics.

(** [output.Statistics.Result.Custom = custom], through the pointer
    [output.Statistics]. *)
Definition set_Custom (output : schema.Output Statistics) (custom : CustomResultStatistics)
  : result (schema.Output Statistics) :=
  match schema.Statistics_ output with
  | None => Panic NilDereference
  | Some st =>
      match set_Result_Custom st custom with
      | Ok st' => Ok {| schema.Solutions := schema.Solutions output;
                        schema.Statistics_ := Some st' |}
      | Panic p => Panic p
      end
  end.

(** The two results of [solver] are the output and the error, [None] for
    the nil error. *)
Definition solver (input : input) (options : options)
  : M (list call) (schema.Output Statistics * option error) :=
  let* built := lift (build input) in
  let m := fst built in
  let propertyRenovationVariables := snd built in
  log call_NewSolver ;;
  match mip_NewSolver "highs" m with
  | inr err => ret (schema.zero, Some err)
  | inl solver =>
      let solveOptions := mip_NewSolveOptions in
      log call_SetMaximumDuration ;;
      match SetMaximumDuration (mip.Duration (Limits options)) solveOptions with
      | (_, Some err) => ret (schema.zero, Some err)
      | (solveOptions, None) =>
          log call_SetMIPGapRelative ;;
          match SetMIPGapRelative (Float64.of_int 0) solveOptions with
          | (_, Some err) => ret (schema.zero, Some err)
          | (solveOptions, None) =>
              let solveOptions := SetVerbosity mip.Off solveOptions in
              log call_Solve ;;
              match Solve solver solveOptions with
              | inr err => ret (schema.zero, Some err)
              | inl solution =>
                  log call_format ;;
                  let* formatted :=
                    lift (format int_overflow input solution propertyRenovationVariables) in
                  let output := mip_Format options formatted solution in
                  let* output :=
                    lift (set_Custom output (mip_DefaultCustomResultStatistics m solution)) in
                  ret (output, None)
              end
          end
      end
  end.

(** A call to the solver engine returns the error [err]: the construction
    of the solver, one of the two settings that can fail, or the solve.
    The list is the calls made up to and including the one that fails. *)
Inductive failure (input : input) (options : options) (err : error) : list call -> Prop :=
| failure_NewSolver m vars :
    build input = Ok (m, vars) ->
    mip_NewSolver "highs" m = inr err ->
    failure input options err [call_NewSolver]
| failure_SetMaximumDuration m vars solver o :
    build input = Ok (m, vars) ->
    mip_NewSolver "highs" m = inl solver ->
    SetMaximumDuration (mip.Duration (Limits options)) mip_NewSolveOptions = (o, Some err) ->
    failure input options err [call_NewSolver; call_SetMaximumDuration]
| failure_SetMIPGapRelative m vars solver o1 o2 :
    build input = Ok (m, vars) ->
    mip_NewSolver "highs" m = inl solver ->
    SetMaximumDuration (mip.Duration (Limits options)) mip_NewSolveOptions = (o1, None) ->
    SetMIPGapRelative (Float64.of_int 0) o1 = (o2, Some err) ->
    failure input options err
            [call_NewSolver; call_SetMaximumDuration; call_SetMIPGapRelative]
| failure_Solve m vars solver o1 o2 :
    build input = Ok (m, vars) ->
    mip_NewSolver "highs" m = inl solver ->
    SetMaximumDuration (mip.Duration (Limits options)) mip_NewSolveOptions = (o1, None) ->
    SetMIPGapRelative (Float64.of_int 0) o1 = (o2, None) ->
    Solve solver (SetVerbosity mip.Off o2) = inr err ->
    failure input options err
            [call_NewSolver; call_SetMaximumDuration; call_SetMIPGapRelative; call_Solve].

End Solver.

(** ** What the solver engine promises

    The formatter reads a variable as the integer [int(math.Round(value))].
    A solver result is feasible for a model when that integer point gives
    every variable the value 0 or 1 and satisfies every constraint, the
    coefficients and right-hand sides taken at their exact values. *)

Section Feasible.
Variable int_overflow : float64 -> Z.

Definition x_of (s : mip.Solution) (v : mip.Var) : Z :=
  match v with
  | mip.bool_Var k => rounded int_overflow (mip.Values s k)
  | mip.nil_Var => 0
  end.

Fixpoint lhs (s : mip.Solution) (ts : list mip.Term) : Q :=
  match ts with
  | [] => 0%Q
  | t :: rest =>
      (Float64.to_Q (mip.Coefficient t) * inject_Z (x_of s (mip.TermVar t))
       + lhs s rest)%Q
  end.

Definition satisfies (s : mip.Solution) (c : mip.Constraint) : bool :=
  match mip.ConstraintSense c with
  | mip.LessThanOrEqual => Qle_bool (lhs s (mip.Terms c)) (Float64.to_Q (mip.RightHandSide c))
  | mip.Equal => Qeq_bool (lhs s (mip.Terms c)) (Float64.to_Q (mip.RightHandSide c))
  | mip.GreaterThanOrEqual => Qle_bool (Float64.to_Q (mip.RightHandSide c)) (lhs s (mip.Terms c))
  end.

Definition binary (s : mip.Solution) (n : nat) : bool :=
  forallb (fun k => let x := rounded int_overflow (mip.Values s k) in
                    (x =? 0) || (x =? 1))
          (seq 0 n).

Definition feasible (m : mip.Model) (s : mip.Solution) : bool :=
  binary s (mip.Vars m) && forallb (satisfies s) (mip.Constraints m).

End Feasible.

(** Every renovation of the input has a cost above zero. *)
Definition positive_costs (input : input) : bool :=
  forallb (fun r => Float64.positive (Renovation.Cost r))
          (all_renovations (Properties input)).

(** The assignments of one property: they carry its ID, and there are at
    most three of them. *)
Definition within_cap (p : Property.t) (chunk : list assignments.t) : Prop :=
  Forall (fun a => assignments.Property a = Property.ID p) chunk /\
  (length chunk <= 3)%nat.

(** ** Concrete inputs and solver results *)

(** The conversion of an out-of-range float on amd64: the smallest
    [int]. *)
Definition amd64_overflow (x : float64) : Z := Float64.int_min.

Definition renovation (id : string) (cost effect : Z) : Renovation.t :=
  {| Renovation.ID := id;
     Renovation.Effect := Float64.of_int effect;
     Renovation.Cost := Float64.of_int cost |}.

(** Scenario A of the specification: one property, budget 10. *)
Definition property_A : Property.t :=
  {| Property.ID := "P1";
     Property.Renovations :=
       [renovation "r1" 5 3; renovation "r2" 4 5; renovation "r3" 3 1] |}.

Definition scenario_A : input := {| Properties := [property_A]; Budget := 10 |}.

(** The optimal plan of scenario A: r1 and r2. *)
Definition plan_A : solution :=
  {| Assignments :=
       [assignment_of property_A (renovation "r1" 5 3);
        assignment_of property_A (renovation "r2" 4 5)] |}.

(** An optimal result that selects r1 and r2, the second with the value
    0.999999. *)
Definition solution_A : mip.Solution :=
  {| mip.IsOptimal := true;
     mip.IsSubOptimal := false;
     mip.Values := fun k =>
       match k with
       | 0%nat => Float64.one
       | 1%nat => Float64.near_one
       | _ => S754_zero false
       end |}.

(** A result without a usable status. *)
Definition solution_infeasible : mip.Solution :=
  {| mip.IsOptimal := false;
     mip.IsSubOptimal := false;
     mip.Values := fun _ => S754_zero false |}.

(** Budget 0 and a renovation that costs nothing. *)
Definition free_input : input :=
  {| Properties :=
       [{| Property.ID := "P1"; Property.Renovations := [renovation "r1" 0 1] |}];
     Budget := 0 |}.

(** An optimal result that gives every variable the value 1. *)
Definition solution_all : mip.Solution :=
  {| mip.IsOptimal := true;
     mip.IsSubOptimal := false;
     mip.Values := fun _ => Float64.one |}.

(** An optimal result that gives every variable the value 0. *)
Definition solution_none : mip.Solution :=
  {| mip.IsOptimal := true;
     mip.IsSubOptimal := false;
     mip.Values := fun _ => S754_zero false |}.

(** Two properties with the same ID, the first with more renovations. *)
Definition duplicate_input : input :=
  {| Properties :=
       [{| Property.ID := "A";
           Property.Renovations := [renovation "r1" 1 1; renovation "r2" 1 1] |};
        {| Property.ID := "A"; Property.Renovations := [renovation "r1" 1 1] |}];
     Budget := 10 |}.

(** Two properties with the same ID, the first with fewer renovations. *)
Definition duplicate_input' : input :=
  {| Properties :=
       [{| Property.ID := "A"; Property.Renovations := [renovation "r1" 1 1] |};
        {| Property.ID := "A";
           Property.Renovations := [renovation "r2" 1 1; renovation "r3" 1 1] |}];
     Budget := 10 |}.

(** A solver engine whose construction and settings succeed and whose
    solve fails. *)
Definition any_provider (provider : string) (m : mip.Model) : unit + string := inl tt.

Definition accepted {A : Type} (a : A) (o : unit) : unit * option string := (tt, None).

Definition failing_Solve (solver o : unit) : mip.Solution + string :=
  inr "solve failed"%string.

Definition default_options : options := {| Limits := {| mip.Duration := 10 ^ 9 |} |}.

(** ** Notions for further properties of the model and of the plan *)

(** A term of a model with [n] variables refers to one of them. *)
Definition term_ok (n : nat) (t : mip.Term) : Prop :=
  exists k, mip.TermVar t = mip.bool_Var k /\ (k < n)%nat.

(** Every term of the objective and of the constraints refers to a
    variable of the model. *)
Definition model_ok (m : mip.Model) : Prop :=
  Forall (term_ok (mip.Vars m)) (mip.ObjectiveTerms (mip.TheObjective m)) /\
  Forall (fun c => Forall (term_ok (mip.Vars m)) (mip.Terms c)) (mip.Constraints m).

(** No slice of the map holds the nil variable. *)
Definition nil_free (vars : gmap string (list mip.Var)) : Prop :=
  forall id l, vars !! id = Some l -> mip.nil_Var ∉ l.

(** The input with more properties after its own. *)
Definition extend (inp : input) (more : list Property.t) : input :=
  {| Properties := Properties inp ++ more; Budget := Budget inp |}.

(** A float that is zero or a finite float above zero. *)
Definition nonnegative (x : float64) : bool :=
  match x with
  | S754_zero _ | S754_finite false _ _ => true
  | _ => false
  end.

(** No renovation of the input has a cost below zero, infinite or NaN. *)
Definition nonnegative_costs (input : input) : bool :=
  forallb (fun r => nonnegative (Renovation.Cost r))
          (all_renovations (Properties input)).

(** The sum of the exact values of a field of the assignments. *)
Fixpoint total (field : assignments.t -> float64) (l : list assignments.t) : Q :=
  match l with
  | [] => 0%Q
  | a :: rest => (Float64.to_Q (field a) + total field rest)%Q
  end.

(** The value of the objective at the integer point the formatter
    reads. *)
Definition objective_value (int_overflow : float64 -> Z) (s : mip.Solution)
    (m : mip.Model) : Q :=
  lhs int_overflow s (mip.ObjectiveTerms (mip.TheObjective m)).

(** The five calls of a run of [solver] without an error, in order. *)
Definition all_calls : list call :=
  [call_NewSolver; call_SetMaximumDuration; call_SetMIPGapRelative; call_Solve;
   call_format].

(** A reporting layer that attaches statistics to the output. *)
Definition reporting (options : options) (plan : solution) (s : mip.Solution)
  : schema.Output unit :=
  {| schema.Solutions := [plan]; schema.Statistics_ := Some tt |}.

(** A solver engine that answers with the result [solution_A]. *)
Definition solving_A (solver o : unit) : mip.Solution + string := inl solution_A.

(** Two properties with different IDs. *)
Definition property_B : Property.t :=
  {| Property.ID := "P2";
     Property.Renovations := [renovation "r1" 2 2; renovation "r2" 1 1] |}.

Definition two_properties : input :=
  {| Properties := [property_A; property_B]; Budget := 10 |}.

(** Scenario A with a budget below zero. *)
Definition negative_budget : input :=
  {| Properties := Properties scenario_A; Budget := -1 |}.

(** A result with the statuses of [solution_A] and other values that
    round as its values do. *)
Definition solution_A' : mip.Solution :=
  {| mip.IsOptimal := true;
     mip.IsSubOptimal := false;
     mip.Values := fun k =>
       match k with
       | 0%nat => Float64.near_one
       | 1%nat => Float64.one
       | _ => S754_zero true
       end |}.

(** A map without an entry for the property of scenario A. *)
Definition other_map : gmap string (list mip.Var) :=
  {[ "P9"%string := [mip.bool_Var 0] ]}.

(** ** Tactics *)

(** The rationals 0 and 1 written as injected integers. *)
Ltac inject_consts :=
  change (inject_Z 0) with 0%Q in *; change (inject_Z 1) with 1%Q in *.

(** A constructor of [call] is not among the elements of a list of other
    constructors. *)
Ltac not_among :=
  let H := fresh in
  intros H;
  repeat (apply elem_of_cons in H as [H|H]; [discriminate H|]);
  by apply elem_of_nil in H.

(** * Properties of the floats: conversions and rounding *)

Section RoundingFacts.
Import Float64.

Lemma Zpos_iter_xO p d : Zpos (Pos.iter xO p d) = Zpos p * 2 ^ Zpos d.
Proof.
  induction d as [|d IH] using Pos.peano_ind.
  - simpl. lia.
  - rewrite Pos.iter_succ, Pos2Z.inj_xO, IH, Pos2Z.inj_succ, Z.pow_succ_r by lia. lia.
Qed.

(** [of_pos] keeps the value. *)
Lemma trunc_of_pos s p : trunc (of_pos s p) = if s then - Zpos p else Zpos p.
Proof.
  unfold of_pos, shl_align. rewrite Z.sub_0_r.
  destruct (Zpos (digits2_pos p) - prec) as [|d|d] eqn:Hd; simpl.
  - by rewrite Z.mul_1_r.
  - by rewrite Z.mul_1_r.
  - rewrite Zpos_iter_xO.
    change (Z.pow_pos 2 d) with (2 ^ Zpos d).
    rewrite Z.div_mul by lia. done.
Qed.

(** The magnitude of [Round x] is the magnitude of [x] plus a half,
    rounded down. *)
Lemma trunc_Round s m e :
  e < 0 ->
  trunc (Round (S754_finite s m e)) =
  let n := (Zpos m + 2 ^ (- e - 1)) / 2 ^ (- e) in
  if s then - n else n.
Proof.
  intros He. unfold Round. rewrite (proj2 (Z.leb_gt 0 e)) by done.
  assert (0 <= (Zpos m + 2 ^ (- e - 1)) / 2 ^ (- e)) by (apply Z.div_pos; lia).
  destruct ((Zpos m + 2 ^ (- e - 1)) / 2 ^ (- e)) as [|p|p] eqn:Hn; [|apply trunc_of_pos|lia].
  simpl. by destruct s.
Qed.

Lemma pow2_split e : e < 0 -> 2 ^ (- e) = 2 * 2 ^ (- e - 1).
Proof. intros He. rewrite <- Z.pow_succ_r by lia. f_equal. lia. Qed.

(** A finite value rounds to 1 or more exactly when it is 1/2 or more. *)
Lemma trunc_Round_ge_1 x :
  is_finite x = true -> (1 <= trunc (Round x) <-> (1 # 2 <= to_Q x)%Q).
Proof.
  destruct x as [s| |  |s m e]; try done; intros _.
  destruct (Z.leb_spec 0 e) as [He|He].
  - unfold Round, to_Q, trunc. rewrite (proj2 (Z.leb_le 0 e)) by done.
    assert (0 < 2 ^ e) by lia.
    unfold Qle; simpl. rewrite (proj2 (Z.leb_le 0 e)) by done.
    destruct s; [change (Z.neg m) with (- Z.pos m)|]; nia.
  - rewrite trunc_Round by done. unfold to_Q.
    rewrite (proj2 (Z.leb_gt 0 e)) by done.
    pose proof (pow2_split e He) as Hp.
    assert (0 < 2 ^ (- e - 1)) by lia.
    unfold Qle; simpl. rewrite Z2Pos.id by lia.
    set (h := 2 ^ (- e - 1)) in *. rewrite Hp. cbv zeta.
    destruct s.
    + assert (0 <= (Zpos m + h) / (2 * h)) by (apply Z.div_pos; lia). lia.
    + split.
      * intros Hn.
        assert (Zpos m + h >= 2 * h); [|lia].
        destruct (Z_lt_ge_dec (Zpos m + h) (2 * h)) as [Hlt|]; [|done].
        rewrite Z.div_small in Hn by lia. lia.
      * intros Hm. apply Z.div_le_lower_bound; lia.
Qed.

(** 0.999999, as a float, rounds to 1. *)
Lemma near_one_nearest :
  (Qabs (to_Q near_one - (999999 # 1000000)) <= 1 # 2 ^ 54)%Q.
Proof. vm_compute. discriminate. Qed.

Lemma trunc_Round_near_one : trunc (Round near_one) = 1.
Proof. reflexivity. Qed.

(** The rounded magnitude of a value of at most 2^62 fits an [int]. *)
Lemma trunc_Round_in_range x :
  is_finite x = true -> (Qabs (to_Q x) <= inject_Z (2 ^ 62))%Q ->
  in_int_range (trunc (Round x)) = true.
Proof.
  destruct x as [s| |  |s m e]; try done; intros _.
  destruct (Z.leb_spec 0 e) as [He|He].
  - unfold Round, to_Q, trunc. rewrite (proj2 (Z.leb_le 0 e)) by done.
    unfold Qle, in_int_range, int_min, int_max; simpl.
    rewrite (proj2 (Z.leb_le 0 e)) by done.
    assert (0 < 2 ^ e) by lia.
    intros Hb. apply andb_true_intro; rewrite Z.leb_le, Z.leb_le.
    destruct s; [change (Z.neg m) with (- Z.pos m) in Hb|]; lia.
  - rewrite trunc_Round by done. unfold to_Q.
    rewrite (proj2 (Z.leb_gt 0 e)) by done.
    pose proof (pow2_split e He) as Hp.
    assert (0 < 2 ^ (- e - 1)) by lia.
    unfold Qle, in_int_range, int_min, int_max; simpl. rewrite Z2Pos.id by lia.
    set (h := 2 ^ (- e - 1)) in *. rewrite Hp. cbv zeta.
    intros Hb.
    assert (Hm : Zpos m <= 2 ^ 62 * (2 * h)).
    { destruct s; simpl in Hb; lia. }
    assert (0 <= (Zpos m + h) / (2 * h)) by (apply Z.div_pos; lia).
    assert ((Zpos m + h) / (2 * h) < 2 ^ 62 + 1).
    { apply Z.div_lt_upper_bound; lia. }
    apply andb_true_intro; rewrite Z.leb_le, Z.leb_le.
    destruct s; lia.
Qed.

Lemma is_finite_Round x : is_finite (Round x) = is_finite x.
Proof.
  destruct x as [s| |  |s m e]; try done. simpl.
  destruct (0 <=? e); [done|].
  destruct (_ / _); try done. unfold of_pos. by destruct (shl_align _ _ _).
Qed.

(** ** The conversion of an integer to a float *)

Lemma digits2_pos_iter_xO m k :
  Zpos (digits2_pos (Pos.iter xO m k)) = Zpos (digits2_pos m) + Zpos k.
Proof.
  induction k as [|k IH] using Pos.peano_ind.
  - simpl. lia.
  - rewrite Pos.iter_succ. simpl digits2_pos. rewrite Pos2Z.inj_succ, IH. lia.
Qed.

Lemma digits2_pos_lower m : 2 ^ (Zpos (digits2_pos m) - 1) <= Zpos m.
Proof.
  induction m as [m IH|m IH|]; simpl digits2_pos; [| |simpl; lia].
  all: rewrite Pos2Z.inj_succ.
  all: replace (Z.succ (Zpos (digits2_pos m)) - 1)
         with (Z.succ (Zpos (digits2_pos m) - 1)) by lia.
  all: rewrite Z.pow_succ_r by lia; lia.
Qed.

(** A mantissa of 53 bits with an exponent in range is not rounded. *)
Lemma binary_round_aux_exact s mz ez :
  Zpos (digits2_pos mz) = 53 -> -1074 <= ez <= 971 ->
  binary_round_aux prec emax s (Zpos mz) ez loc_Exact = S754_finite s mz ez.
Proof.
  intros Hd He. unfold binary_round_aux, shr_fexp. simpl Zdigits2.
  rewrite Hd. unfold fexp, emin, prec, emax.
  replace (Z.max (53 + ez - 53) (3 - 1024 - 53) - ez) with 0 by lia.
  simpl. rewrite Hd.
  replace (Z.max (53 + ez - 53) (3 - 1024 - 53) - ez) with 0 by lia.
  simpl. change (1024 - 53) with 971.
  destruct (Z.leb_spec ez 971); [done|lia].
Qed.

(** For an integer below 2^53 the rounding of the Standard Library has
    nothing to round: it is [of_pos]. *)
Lemma binary_round_of_pos s m :
  Zpos m < 2 ^ 53 -> binary_round prec emax s m 0 = of_pos s m.
Proof.
  intros Hm. unfold binary_round, of_pos.
  pose proof (digits2_pos_lower m) as Hlow.
  assert (Hd : Zpos (digits2_pos m) <= 53).
  { destruct (Z_le_gt_dec (Zpos (digits2_pos m)) 53) as [|Hgt]; [done|].
    assert (2 ^ 53 <= 2 ^ (Zpos (digits2_pos m) - 1))
      by (apply Z.pow_le_mono_r; lia).
    lia. }
  unfold fexp, emin, prec, emax. rewrite Z.add_0_r.
  replace (Z.max (Zpos (digits2_pos m) - 53) (3 - 1024 - 53))
    with (Zpos (digits2_pos m) - 53) by lia.
  unfold shl_align. rewrite Z.sub_0_r.
  destruct (Zpos (digits2_pos m) - 53) as [|k|k] eqn:Hk; [|lia|].
  - by rewrite binary_round_aux_exact by lia.
  - rewrite binary_round_aux_exact; [done| |lia].
    rewrite digits2_pos_iter_xO. lia.
Qed.

Lemma to_Q_of_pos s p :
  (to_Q (of_pos s p) == inject_Z (if s then Zneg p else Zpos p))%Q.
Proof.
  unfold of_pos, shl_align. rewrite Z.sub_0_r.
  destruct (Zpos (digits2_pos p) - prec) as [|d|d]; unfold to_Q.
  - simpl. by rewrite Z.mul_1_r.
  - simpl. by rewrite Z.mul_1_r.
  - change (0 <=? Zneg d) with false. cbv iota.
    unfold Qeq; simpl. rewrite Z.mul_1_r.
    change (Z.pow_pos 2 d) with (2 ^ Zpos d).
    rewrite Z2Pos.id by lia.
    destruct s; [change (Zneg (Pos.iter xO p d)) with (- Zpos (Pos.iter xO p d));
                 change (Zneg p) with (- Zpos p)|];
      rewrite Zpos_iter_xO; change (- Zneg d) with (Zpos d); lia.
Qed.

(** [float64(n)] has the value [n] for an integer of magnitude below
    2^53. *)
Lemma to_Q_of_int n : Z.abs n < 2 ^ 53 -> (to_Q (of_int n) == inject_Z n)%Q.
Proof.
  intros Hn. unfold of_int, binary_normalize.
  destruct n as [|m|m]; [reflexivity| |];
    rewrite binary_round_of_pos by lia; apply to_Q_of_pos.
Qed.

(** The floats of the development are binary64 values. *)
Lemma valid_constants :
  valid one = true /\ valid three = true /\ valid near_one = true.
Proof. by vm_compute. Qed.

(** [math.Round] at some values: 2.5, -2.5, 0.5, -0.5, 1.5, the float
    below 0.5 and 2^53. *)
Lemma Round_examples :
  Round (S754_finite false 5 (-1)) = of_int 3 /\
  Round (S754_finite true 5 (-1)) = of_int (-3) /\
  Round (S754_finite false 1 (-1)) = of_int 1 /\
  Round (S754_finite true 1 (-1)) = of_int (-1) /\
  Round (S754_finite false 3 (-1)) = of_int 2 /\
  Round (S754_finite false 9007199254740991 (-54)) = S754_zero false /\
  Round (of_int (2 ^ 53)) = of_int (2 ^ 53).
Proof. by vm_compute. Qed.

Section Rounded.
Variable int_overflow : float64 -> Z.

Lemma rounded_finite x :
  is_finite x = true -> in_int_range (trunc (Round x)) = true ->
  rounded int_overflow x = trunc (Round x).
Proof.
  intros Hf Hr. unfold rounded, to_int. by rewrite is_finite_Round, Hf, Hr.
Qed.

(** The value of a variable is rounded to 1 or more exactly when it is
    1/2 or more, for a finite value of magnitude at most 2^62. *)
Lemma rounded_ge_1 x :
  is_finite x = true -> (Qabs (to_Q x) <= inject_Z (2 ^ 62))%Q ->
  (1 <= rounded int_overflow x <-> (1 # 2 <= to_Q x)%Q).
Proof.
  intros Hf Hb. rewrite rounded_finite by auto using trunc_Round_in_range.
  by apply trunc_Round_ge_1.
Qed.

Lemma rounded_near_one : rounded int_overflow near_one = 1.
Proof. reflexivity. Qed.

End Rounded.

End RoundingFacts.

(** * Properties of the model builder *)

Section BuilderFacts.

Lemma length_terms_of coef first rs : length (terms_of coef first rs) = length rs.
Proof. revert first; induction rs as [|r rs IH]; intros first; simpl; [done|]. by rewrite IH. Qed.

Lemma terms_of_app coef first rs1 rs2 :
  terms_of coef first (rs1 ++ rs2) =
  terms_of coef first rs1 ++ terms_of coef (first + length rs1) rs2.
Proof.
  revert first; induction rs1 as [|r rs1 IH]; intros first; simpl.
  - by rewrite Nat.add_0_r.
  - rewrite IH. by replace (S first + length rs1)%nat with (first + S (length rs1))%nat by lia.
Qed.

Lemma lookup_terms_of coef first rs j :
  terms_of coef first rs !! j =
  (fun r => {| mip.Coefficient := coef r; mip.TermVar := mip.bool_Var (first + j) |})
    <$> rs !! j.
Proof.
  revert first j; induction rs as [|r rs IH]; intros first [|j]; simpl; try done.
  - by rewrite Nat.add_0_r.
  - rewrite IH. by replace (S first + j)%nat with (first + S j)%nat by lia.
Qed.

Lemma add_terms_nil c : add_terms [] c = c.
Proof. destruct c; unfold add_terms; simpl. by rewrite app_nil_r. Qed.

Lemma add_terms_add_term t ts c :
  add_terms ts (mip.add_term t c) = add_terms (t :: ts) c.
Proof. unfold add_terms, mip.add_term; simpl. by rewrite <- app_assoc. Qed.

Lemma add_terms_add_terms ts1 ts2 c :
  add_terms ts2 (add_terms ts1 c) = add_terms (ts1 ++ ts2) c.
Proof. unfold add_terms; simpl. by rewrite <- app_assoc. Qed.

(** Running the primitives of the monad. *)
Lemma bind_ok {S A B} (c : M S A) (k : A -> M S B) s a s' :
  c s = Ok (a, s') -> bind c k s = k a s'.
Proof. unfold bind. by intros ->. Qed.

Lemma bind_panic {S A B} (c : M S A) (k : A -> M S B) s p :
  c s = Panic p -> bind c k s = Panic p.
Proof. unfold bind. by intros ->. Qed.

Lemma read_var_ok id i s l v :
  propertyRenovationVariables s !! id = Some l -> l !! i = Some v ->
  read_var id i s = Ok (v, s).
Proof.
  intros Hl Hv. unfold read_var, bind, gets, lift, slice_index.
  by rewrite Hl; simpl; rewrite Hv.
Qed.

Lemma write_var_ok id i v s l :
  propertyRenovationVariables s !! id = Some l -> (i < length l)%nat ->
  write_var id i v s =
  Ok (tt, {| model := model s;
             propertyRenovationVariables :=
               alter (fun l => <[i := v]> l) id (propertyRenovationVariables s) |}).
Proof.
  intros Hl Hi. destruct (lookup_lt_is_Some_2 l i Hi) as [v0 Hv0].
  unfold write_var, bind, gets, lift, modify, slice_index.
  by rewrite Hl; simpl; rewrite Hv0.
Qed.

(** One iteration of the inner loop. *)
Lemma renovations_loop_step id b c i r rest s l :
  propertyRenovationVariables s !! id = Some l ->
  (i < length l)%nat ->
  renovations_loop id b c i (r :: rest) s =
  renovations_loop id b c (S i) rest
    {| model :=
         mip.Constraint_NewTerm c Float64.one (mip.bool_Var (mip.Vars (model s)))
           (mip.Constraint_NewTerm b (Renovation.Cost r) (mip.bool_Var (mip.Vars (model s)))
              (mip.Objective_NewTerm (Renovation.Effect r) (mip.bool_Var (mip.Vars (model s)))
                 (snd (mip.NewBool (model s)))));
       propertyRenovationVariables :=
         alter (fun l => <[i := mip.bool_Var (mip.Vars (model s))]> l) id
               (propertyRenovationVariables s) |}.
Proof.
  intros Hl Hi.
  set (v := mip.bool_Var (mip.Vars (model s))).
  assert (Hread : forall m',
    read_var id i {| model := m';
                     propertyRenovationVariables :=
                       alter (fun l => <[i := v]> l) id (propertyRenovationVariables s) |}
    = Ok (v, {| model := m';
                propertyRenovationVariables :=
                  alter (fun l => <[i := v]> l) id (propertyRenovationVariables s) |})).
  { intros m'. eapply read_var_ok; simpl.
    - by rewrite lookup_alter_eq, Hl.
    - by apply list_lookup_insert_eq. }
  cbn [renovations_loop].
  erewrite bind_ok by reflexivity.
  erewrite bind_ok by (eapply write_var_ok; simpl; eauto).
  erewrite bind_ok by apply Hread.
  erewrite bind_ok by reflexivity.
  erewrite bind_ok by apply Hread.
  erewrite bind_ok by reflexivity.
  erewrite bind_ok by apply Hread.
  erewrite bind_ok by reflexivity.
  reflexivity.
Qed.

Lemma vars_of_S first n : vars_of first (S n) = mip.bool_Var first :: vars_of (S first) n.
Proof. reflexivity. Qed.

Lemma length_vars_of first n : length (vars_of first n) = n.
Proof. unfold vars_of. by rewrite length_fmap, length_seq. Qed.

Lemma lookup_vars_of first n j :
  (j < n)%nat -> vars_of first n !! j = Some (mip.bool_Var (first + j)).
Proof.
  intros Hj. unfold vars_of. rewrite list_lookup_fmap, lookup_seq_lt by done. done.
Qed.

(** The inner loop creates one variable per renovation and adds its terms
    to the objective, to the budget constraint [b] and to the count
    constraint [c]; it fills the slice of the property from index [i]. *)
Lemma renovations_loop_spec id b c rs : forall i s l,
  propertyRenovationVariables s !! id = Some l ->
  (i + length rs <= length l)%nat ->
  b <> c ->
  renovations_loop id b c i rs s =
  Ok (tt,
      {| model :=
           {| mip.Vars := mip.Vars (model s) + length rs;
              mip.TheObjective :=
                {| mip.IsMaximize := mip.IsMaximize (mip.TheObjective (model s));
                   mip.ObjectiveTerms :=
                     mip.ObjectiveTerms (mip.TheObjective (model s)) ++
                     terms_of Renovation.Effect (mip.Vars (model s)) rs |};
              mip.Constraints :=
                alter (add_terms (terms_of Renovation.Cost (mip.Vars (model s)) rs)) b
                  (alter (add_terms (terms_of (fun _ => Float64.one) (mip.Vars (model s)) rs)) c
                     (mip.Constraints (model s))) |};
         propertyRenovationVariables :=
           <[id := take i l ++ vars_of (mip.Vars (model s)) (length rs)
                   ++ drop (i + length rs) l]> (propertyRenovationVariables s) |}).
Proof.
  induction rs as [|r rs IH]; intros i s l Hl Hi Hbc.
  - destruct s as [[n [mx ots] cs] prv]; simpl in *.
    unfold ret. do 3 f_equal.
    + f_equal; [lia| by rewrite app_nil_r |].
      rewrite !list_alter_id; auto using add_terms_nil.
    + rewrite Nat.add_0_r, take_drop. symmetry. by apply insert_id.
  - simpl in Hi.
    rewrite (renovations_loop_step id b c i r rs s l); [| done | lia].
    erewrite IH; [| simpl; rewrite lookup_alter_eq, Hl; reflexivity
                  | rewrite length_insert; lia | done ].
    destruct s as [[n [mx ots] cs] prv]; simpl in *.
    do 3 f_equal.
    + f_equal; [lia | by rewrite <- app_assoc |].
      rewrite (list_alter_alter_eq _ _ _ c).
      rewrite (list_alter_alter_ne _ _ _ c b) by done.
      rewrite (list_alter_alter_eq _ _ _ b).
      apply list_alter_ext; [intros x _; apply add_terms_add_term |].
      apply list_alter_ext; [intros x _; apply add_terms_add_term | done].
    + rewrite insert_alter_eq. f_equal.
      rewrite (take_S_r _ i (mip.bool_Var n)) by (apply list_lookup_insert_eq; lia).
      rewrite take_insert_ge by lia.
      rewrite drop_insert_lt by lia.
      rewrite <- app_assoc. unfold vars_of. simpl.
      by replace (i + S (length rs))%nat with (S (i + length rs)) by lia.
Qed.

Lemma all_renovations_cons p ps :
  all_renovations (p :: ps) = Property.Renovations p ++ all_renovations ps.
Proof. reflexivity. Qed.

(** The outer loop adds one count constraint per property after the
    constraints the model had, and records the variables of each property
    under its ID. *)
Lemma properties_loop_spec b ps : forall s,
  (b < length (mip.Constraints (model s)))%nat ->
  properties_loop b ps s =
  Ok (tt,
      {| model :=
           {| mip.Vars := mip.Vars (model s) + length (all_renovations ps);
              mip.TheObjective :=
                {| mip.IsMaximize := mip.IsMaximize (mip.TheObjective (model s));
                   mip.ObjectiveTerms :=
                     mip.ObjectiveTerms (mip.TheObjective (model s)) ++
                     terms_of Renovation.Effect (mip.Vars (model s)) (all_renovations ps) |};
              mip.Constraints :=
                alter (add_terms (terms_of Renovation.Cost (mip.Vars (model s))
                                           (all_renovations ps))) b
                      (mip.Constraints (model s))
                ++ count_constraints (mip.Vars (model s)) ps |};
         propertyRenovationVariables :=
           index_from (mip.Vars (model s)) ps (propertyRenovationVariables s) |}).
Proof.
  induction ps as [|p ps IH]; intros s Hb.
  - destruct s as [[n [mx ots] cs] prv]; simpl in *.
    unfold ret. do 3 f_equal.
    f_equal; [lia | by rewrite app_nil_r |].
    rewrite app_nil_r. by rewrite list_alter_id by apply add_terms_nil.
  - cbn [properties_loop].
    erewrite bind_ok by reflexivity.
    erewrite bind_ok by reflexivity.
    erewrite bind_ok.
    2:{ apply renovations_loop_spec
          with (l := replicate (length (Property.Renovations p)) mip.nil_Var); simpl.
        - apply lookup_insert_eq.
        - rewrite length_replicate. lia.
        - lia. }
    rewrite IH by (simpl; rewrite !length_alter, length_app; simpl; lia).
    destruct s as [[n [mx ots] cs] prv]; simpl in *.
    rewrite all_renovations_cons, !terms_of_app, length_app.
    do 3 f_equal.
    + f_equal; [lia | by rewrite <- app_assoc |].
      replace (length cs) with (length cs + 0)%nat at 1 by lia.
      rewrite alter_app_r. simpl.
      rewrite !alter_app_l by (rewrite ?length_alter; lia).
      rewrite list_alter_alter_eq.
      rewrite <- app_assoc. simpl. f_equal.
      apply list_alter_ext; [intros x _; apply add_terms_add_terms | done].
    + rewrite insert_insert_eq. rewrite drop_replicate, Nat.sub_diag. simpl.
      by rewrite app_nil_r.
Qed.

(** The builder never panics, and the model and the map it returns are
    the closed forms [model_of] and [index_of]. *)
Lemma build_spec input : build input = Ok (model_of input, index_of input).
Proof.
  unfold build, solver_model.
  erewrite bind_ok by reflexivity.
  erewrite bind_ok by reflexivity.
  rewrite properties_loop_spec by (simpl; lia).
  simpl. unfold model_of, index_of. simpl. reflexivity.
Qed.

Lemma offset_0 ps : offset ps 0 = 0%nat.
Proof. reflexivity. Qed.

Lemma offset_S p ps i :
  offset (p :: ps) (S i) = (length (Property.Renovations p) + offset ps i)%nat.
Proof. unfold offset. simpl. by rewrite all_renovations_cons, length_app. Qed.

(** Every position of [all_renovations] is a renovation of one property. *)
Lemma locate ps : forall k r,
  all_renovations ps !! k = Some r ->
  exists i p j, ps !! i = Some p /\ Property.Renovations p !! j = Some r /\
                k = (offset ps i + j)%nat.
Proof.
  induction ps as [|p ps IH]; intros k r Hk; [done|].
  rewrite all_renovations_cons in Hk.
  destruct (decide (k < length (Property.Renovations p))%nat) as [Hlt|Hge].
  - rewrite lookup_app_l in Hk by done. by exists 0%nat, p, k.
  - rewrite lookup_app_r in Hk by lia.
    destruct (IH _ _ Hk) as (i & q & j & Hq & Hj & Heq).
    exists (S i), q, j. rewrite offset_S. repeat split; [done..|lia].
Qed.

Lemma lookup_all_renovations ps : forall i p j r,
  ps !! i = Some p -> Property.Renovations p !! j = Some r ->
  all_renovations ps !! (offset ps i + j)%nat = Some r.
Proof.
  induction ps as [|q ps IH]; intros [|i] p j r Hp Hr; simplify_eq/=.
  - rewrite all_renovations_cons, lookup_app_l by (by eapply lookup_lt_Some). done.
  - rewrite offset_S, all_renovations_cons, <- Nat.add_assoc, lookup_app_r by lia.
    replace (length (Property.Renovations q) + (offset ps i + j)
             - length (Property.Renovations q))%nat with (offset ps i + j)%nat by lia.
    by eapply IH.
Qed.

Lemma offset_bound ps : forall i p,
  ps !! i = Some p ->
  (offset ps i + length (Property.Renovations p) <= length (all_renovations ps))%nat.
Proof.
  induction ps as [|q ps IH]; intros [|i] p Hp; simplify_eq/=;
    rewrite all_renovations_cons, length_app.
  - change (offset (p :: ps) 0) with 0%nat. lia.
  - rewrite offset_S. specialize (IH i p Hp). lia.
Qed.

Lemma length_all_renovations ps :
  length (all_renovations ps) =
  sum_list ((fun p => length (Property.Renovations p)) <$> ps).
Proof.
  induction ps as [|p ps IH]; [done|].
  rewrite all_renovations_cons, length_app, IH. done.
Qed.

(** The variables of different properties are different. *)
Lemma locate_unique ps : forall i i' p p' j j',
  ps !! i = Some p -> ps !! i' = Some p' ->
  (j < length (Property.Renovations p))%nat ->
  (j' < length (Property.Renovations p'))%nat ->
  (offset ps i + j = offset ps i' + j')%nat ->
  i = i' /\ j = j'.
Proof.
  induction ps as [|q ps IH]; intros [|i] [|i'] p p' j j' Hp Hp' Hj Hj' Heq;
    try done; rewrite ?offset_S, ?offset_0 in Heq; simpl in Hp, Hp'.
  - injection Hp as ->. lia.
  - injection Hp' as ->. lia.
  - destruct (IH i i' p p' j j') as [-> ->]; try done; lia.
Qed.

Lemma lookup_count_constraints ps : forall first i,
  count_constraints first ps !! i =
  (fun p => {| mip.ConstraintSense := mip.LessThanOrEqual;
               mip.RightHandSide := Float64.three;
               mip.Terms := terms_of (fun _ => Float64.one) (first + offset ps i)
                                     (Property.Renovations p) |}) <$> ps !! i.
Proof.
  induction ps as [|p ps IH]; intros first [|i]; simpl; try done.
  - by rewrite offset_0, Nat.add_0_r.
  - rewrite IH, offset_S. by rewrite Nat.add_assoc.
Qed.

Lemma length_count_constraints ps first :
  length (count_constraints first ps) = length ps.
Proof. revert first; induction ps as [|p ps IH]; intros first; simpl; [done|]. by rewrite IH. Qed.

Lemma occurs_terms_of coef first rs k :
  occurs (terms_of coef first rs) k -> (first <= k < first + length rs)%nat.
Proof.
  intros (j & t & Ht & Hv). rewrite lookup_terms_of in Ht.
  destruct (rs !! j) as [r|] eqn:Hr; simplify_eq/=.
  apply lookup_lt_Some in Hr. lia.
Qed.

Lemma occurs_once_terms_of coef first rs j r :
  rs !! j = Some r -> occurs_once (terms_of coef first rs) (first + j) (coef r).
Proof.
  intros Hr. exists j. split.
  - by rewrite lookup_terms_of, Hr.
  - intros j' t Ht Hv. rewrite lookup_terms_of in Ht.
    destruct (rs !! j') as [r'|]; simplify_eq/=. lia.
Qed.

(** C1. For every input the builder returns a model with one binary
    variable per (property, renovation) pair, a maximization objective and
    1 + N constraints for N properties: the budget constraint, with
    comparator <= and right-hand side [float64(input.Budget)], which is
    the budget itself below 2^53, and one count constraint (<= 3) per
    property. The variable of a pair occurs in
    exactly one term of the objective (coefficient: the Effect of the
    renovation), in exactly one term of the budget constraint (coefficient:
    its Cost) and in exactly one term of exactly one count constraint, that
    of its property (coefficient 1); the model has no other variable. *)
Theorem solver_model_shape (input : input) :
  exists (m : mip.Model) (vars : gmap string (list mip.Var)) (budget : mip.Constraint),
    build input = Ok (m, vars) /\
    mip.Vars m =
      sum_list ((fun p => length (Property.Renovations p)) <$> Properties input) /\
    mip.IsMaximize (mip.TheObjective m) = true /\
    length (mip.ObjectiveTerms (mip.TheObjective m)) = mip.Vars m /\
    length (mip.Constraints m) = (1 + length (Properties input))%nat /\
    mip.Constraints m !! 0%nat = Some budget /\
    mip.ConstraintSense budget = mip.LessThanOrEqual /\
    mip.RightHandSide budget = Float64.of_int (Budget input) /\
    (Z.abs (Budget input) < 2 ^ 53 ->
     (Float64.to_Q (mip.RightHandSide budget) == inject_Z (Budget input))%Q) /\
    length (mip.Terms budget) = mip.Vars m /\
    (forall i p, Properties input !! i = Some p ->
       exists count,
         mip.Constraints m !! S i = Some count /\
         mip.ConstraintSense count = mip.LessThanOrEqual /\
         mip.RightHandSide count = Float64.three /\
         length (mip.Terms count) = length (Property.Renovations p)) /\
    (forall i p j r,
       Properties input !! i = Some p -> Property.Renovations p !! j = Some r ->
       let k := (offset (Properties input) i + j)%nat in
       (k < mip.Vars m)%nat /\
       occurs_once (mip.ObjectiveTerms (mip.TheObjective m)) k (Renovation.Effect r) /\
       occurs_once (mip.Terms budget) k (Renovation.Cost r) /\
       (exists count,
          mip.Constraints m !! S i = Some count /\
          occurs_once (mip.Terms count) k Float64.one) /\
       (forall i' count',
          mip.Constraints m !! S i' = Some count' ->
          occurs (mip.Terms count') k -> i' = i)) /\
    (forall k, (k < mip.Vars m)%nat ->
       exists i p j r,
         Properties input !! i = Some p /\ Property.Renovations p !! j = Some r /\
         k = (offset (Properties input) i + j)%nat).
Proof.
  set (ps := Properties input).
  exists (model_of input), (index_of input),
    {| mip.ConstraintSense := mip.LessThanOrEqual;
       mip.RightHandSide := Float64.of_int (Budget input);
       mip.Terms := terms_of Renovation.Cost 0 (all_renovations ps) |}.
  split; [apply build_spec|].
  simpl. fold ps.
  rewrite !length_terms_of, length_count_constraints.
  split; [apply length_all_renovations|].
  do 6 (split; [done|]).
  split; [apply to_Q_of_int|].
  split; [done|].
  split; [|split].
  - intros i p Hp. rewrite lookup_count_constraints, Hp. simpl.
    eexists; split; [done|]. simpl. by rewrite length_terms_of.
  - intros i p j r Hp Hr.
    pose proof (lookup_all_renovations ps i p j r Hp Hr) as Hk.
    split; [by eapply lookup_lt_Some|].
    split; [by apply (occurs_once_terms_of Renovation.Effect 0)|].
    split; [by apply (occurs_once_terms_of Renovation.Cost 0)|].
    split.
    + rewrite lookup_count_constraints, Hp. simpl. eexists; split; [done|]. simpl.
      by apply (occurs_once_terms_of (fun _ => Float64.one) _ _ j r).
    + intros i' c'. rewrite lookup_count_constraints.
      destruct (ps !! i') as [p'|] eqn:Hp'; [|done]. simpl. intros [= <-] Hocc.
      apply occurs_terms_of in Hocc. simpl in Hocc.
      apply lookup_lt_Some in Hr.
      destruct (locate_unique ps i' i p' p
                  (offset ps i + j - offset ps i') j) as [? _]; try done; lia.
  - intros k Hk. destruct (lookup_lt_is_Some_2 _ _ Hk) as [r Hr].
    destruct (locate ps k r Hr) as (i & q & j & ? & ? & ?). by exists i, q, j, r.
Qed.

End BuilderFacts.

(** ** The map of variables the builder returns *)

Section IndexFacts.

Lemma last_with_id_Some id ps : forall l,
  last_with_id id ps = Some l ->
  exists p, ps !! l = Some p /\ Property.ID p = id /\
            forall l' p', ps !! l' = Some p' -> Property.ID p' = id -> (l' <= l)%nat.
Proof.
  induction ps as [|q ps IH]; intros l Hl; [done|]. simpl in Hl.
  destruct (last_with_id id ps) as [l0|] eqn:Hl0.
  - injection Hl as <-. destruct (IH l0 eq_refl) as (p & Hp & Hid & Hmax).
    exists p. split_and!; [done..|].
    intros [|l'] p' Hp' Hid'; [lia|]. simpl in Hp'.
    specialize (Hmax l' p' Hp' Hid'). lia.
  - destruct (decide (Property.ID q = id)) as [Hq|Hq]; [|done].
    injection Hl as <-. exists q. split_and!; [done..|].
    intros [|l'] p' Hp' Hid'; [lia|]. simpl in Hp'. exfalso.
    clear IH. revert l' Hp'. induction ps as [|q' ps IH']; intros l' Hp'; [done|].
    simpl in Hl0. destruct (last_with_id id ps) eqn:?; [done|].
    destruct (decide (Property.ID q' = id)); [done|].
    destruct l' as [|l']; simplify_eq/=; eauto.
Qed.

Lemma last_with_id_lookup ps : forall i p,
  ps !! i = Some p ->
  exists l, last_with_id (Property.ID p) ps = Some l /\ (i <= l)%nat.
Proof.
  induction ps as [|q ps IH]; intros [|i] p Hp; simplify_eq/=.
  - destruct (last_with_id _ ps) as [l|]; [exists (S l); split; [done|lia]|].
    rewrite decide_True by done. exists 0%nat. done.
  - destruct (IH i p Hp) as (l & -> & Hl). exists (S l). split; [done|lia].
Qed.

Lemma last_with_id_unique ps i p :
  NoDup (Property.ID <$> ps) -> ps !! i = Some p ->
  last_with_id (Property.ID p) ps = Some i.
Proof.
  intros Hnd Hp.
  destruct (last_with_id_lookup ps i p Hp) as (l & Hl & Hil).
  destruct (last_with_id_Some _ _ _ Hl) as (q & Hq & Hid & _).
  rewrite Hl. f_equal.
  eapply NoDup_lookup; [done| |].
  - by rewrite list_lookup_fmap, Hq.
  - rewrite list_lookup_fmap, Hp. simpl. congruence.
Qed.

(** What the map holds for an ID: the variables of the last property with
    that ID. *)
Lemma index_from_lookup id ps : forall first vars,
  index_from first ps vars !! id =
  match last_with_id id ps with
  | Some l =>
      (fun p => vars_of (first + offset ps l) (length (Property.Renovations p)))
        <$> ps !! l
  | None => vars !! id
  end.
Proof.
  induction ps as [|q ps IH]; intros first vars; [done|].
  cbn [index_from last_with_id]. rewrite IH.
  destruct (last_with_id id ps) as [l|].
  - simpl. rewrite offset_S. by rewrite Nat.add_assoc.
  - destruct (decide (Property.ID q = id)) as [<-|Hne].
    + rewrite lookup_insert_eq. simpl. by rewrite offset_0, Nat.add_0_r.
    + by rewrite lookup_insert_ne.
Qed.

Lemma index_of_lookup input id :
  index_of input !! id =
  match last_with_id id (Properties input) with
  | Some l =>
      (fun p => vars_of (offset (Properties input) l) (length (Property.Renovations p)))
        <$> Properties input !! l
  | None => None
  end.
Proof. unfold index_of. rewrite index_from_lookup. by destruct (last_with_id _ _). Qed.

Lemma var_of_vars_of vars id first n j :
  vars !! id = Some (vars_of first n) ->
  var_of vars id j = if decide (j < n)%nat then Some (first + j)%nat else None.
Proof.
  intros Hv. unfold var_of. rewrite Hv. simpl.
  destruct (decide (j < n)%nat).
  - by rewrite lookup_vars_of.
  - rewrite lookup_ge_None_2; [done|]. rewrite length_vars_of. lia.
Qed.

(** The variable the formatter reads for the [j]-th renovation of a
    property: the [j]-th variable of the last property with its ID, or
    none when that property has no [j]-th renovation. *)
Lemma var_of_index_of input i p j :
  Properties input !! i = Some p ->
  exists l q,
    last_with_id (Property.ID p) (Properties input) = Some l /\
    Properties input !! l = Some q /\
    Property.ID q = Property.ID p /\ (i <= l)%nat /\
    index_of input !! Property.ID p =
      Some (vars_of (offset (Properties input) l) (length (Property.Renovations q))) /\
    var_of (index_of input) (Property.ID p) j =
      if decide (j < length (Property.Renovations q))%nat
      then Some (offset (Properties input) l + j)%nat else None.
Proof.
  intros Hp.
  destruct (last_with_id_lookup _ i p Hp) as (l & Hl & Hil).
  destruct (last_with_id_Some _ _ _ Hl) as (q & Hq & Hid & _).
  exists l, q. split_and!; [done..| |].
  - by rewrite index_of_lookup, Hl, Hq.
  - apply var_of_vars_of. by rewrite index_of_lookup, Hl, Hq.
Qed.

(** With unique IDs the builder's map has the variable of every pair. *)
Lemma var_of_index_of_unique input i p j r :
  unique_ids input ->
  Properties input !! i = Some p -> Property.Renovations p !! j = Some r ->
  var_of (index_of input) (Property.ID p) j = Some (offset (Properties input) i + j)%nat.
Proof.
  intros Hu Hp Hr.
  destruct (var_of_index_of input i p j Hp) as (l & q & Hl & Hq & _ & _ & _ & ->).
  rewrite (last_with_id_unique _ i p Hu Hp) in Hl. simplify_eq.
  rewrite decide_True; [done|]. by eapply lookup_lt_Some.
Qed.

(** The variables of the builder's map are variables of the model. *)
Lemma var_of_index_of_lt input i p j k :
  Properties input !! i = Some p ->
  var_of (index_of input) (Property.ID p) j = Some k ->
  (k < length (all_renovations (Properties input)))%nat.
Proof.
  intros Hp Hk.
  destruct (var_of_index_of input i p j Hp) as (l & q & _ & Hq & _ & _ & _ & Hv).
  rewrite Hv in Hk. destruct (decide _) as [Hj|]; [|done]. injection Hk as <-.
  destruct (lookup_lt_is_Some_2 _ _ Hj) as [r Hr].
  eapply lookup_lt_Some. by apply (lookup_all_renovations _ l q j r).
Qed.

End IndexFacts.

(** * Properties of the formatter *)

Section FormatFacts.
Variable int_overflow : float64 -> Z.

Lemma renovation_at_ok input i j p r :
  Properties input !! i = Some p -> Property.Renovations p !! j = Some r ->
  renovation_at input i j = Ok r.
Proof. intros Hp Hr. unfold renovation_at. by rewrite Hp, Hr. Qed.

(** One iteration of the inner loop of [format]. *)
Lemma format_step_spec i p j r fr :
  Properties (frame_input fr) !! i = Some p ->
  Property.Renovations p !! j = Some r ->
  format_step int_overflow i p j fr =
  match slice_index (frame_propertyRenovationVariables fr) (Property.ID p) j with
  | Panic e => Panic e
  | Ok v =>
      match mip.Value (frame_solverSolution fr) v with
      | Panic e => Panic e
      | Ok x =>
          Ok (tt, set_assigned
                    (assigned fr ++
                     (if rounded int_overflow x <? 1 then [] else [assignment_of p r])) fr)
      end
  end.
Proof.
  intros Hp Hr. unfold format_step.
  erewrite bind_ok by reflexivity.
  destruct (slice_index _ _ _) as [v|e] eqn:Hv; [|by apply bind_panic].
  erewrite bind_ok by reflexivity.
  erewrite bind_ok by reflexivity.
  destruct (mip.Value _ v) as [x|e] eqn:Hx; [|by apply bind_panic].
  erewrite bind_ok by reflexivity.
  destruct (rounded int_overflow x <? 1).
  - unfold ret. destruct fr; unfold set_assigned; simpl. by rewrite app_nil_r.
  - erewrite bind_ok by reflexivity.
    rewrite (renovation_at_ok _ _ _ _ _ Hp Hr).
    erewrite !bind_ok by reflexivity. reflexivity.
Qed.

Lemma set_assigned_id fr : set_assigned (assigned fr) fr = fr.
Proof. by destruct fr. Qed.

Lemma set_assigned_twice a b fr : set_assigned a (set_assigned b fr) = set_assigned a fr.
Proof. reflexivity. Qed.

Lemma drop_cons_lookup {A} (l : list A) j x rest :
  drop j l = x :: rest -> l !! j = Some x /\ drop (S j) l = rest.
Proof.
  intros Hd. split.
  - rewrite <- (Nat.add_0_r j), <- lookup_drop, Hd. done.
  - rewrite <- (Nat.add_1_l j), Nat.add_comm, <- drop_drop, Hd. done.
Qed.

(** The inner loop of [format] appends to [assigned] what [collect]
    computes, and panics where [collect] does. *)
Lemma format_renovations_spec i p rs : forall j fr,
  Properties (frame_input fr) !! i = Some p ->
  drop j (Property.Renovations p) = rs ->
  format_renovations int_overflow i p j rs fr =
  match collect int_overflow (frame_solverSolution fr)
                (frame_propertyRenovationVariables fr) p j rs with
  | Ok l => Ok (tt, set_assigned (assigned fr ++ l) fr)
  | Panic e => Panic e
  end.
Proof.
  induction rs as [|r rs IH]; intros j fr Hp Hd.
  - simpl. unfold ret. by rewrite app_nil_r, set_assigned_id.
  - apply drop_cons_lookup in Hd as [Hr Hd].
    cbn [format_renovations collect]. unfold bind at 1.
    rewrite (format_step_spec i p j r fr Hp Hr).
    destruct (slice_index _ _ _) as [v|e]; [|done].
    destruct (mip.Value _ v) as [x|e]; [|done].
    rewrite IH by done. simpl.
    destruct (collect _ _ _ p (S j) rs) as [tl|e]; [|done].
    by rewrite set_assigned_twice, <- app_assoc.
Qed.

Lemma format_properties_spec ps : forall i fr,
  drop i (Properties (frame_input fr)) = ps ->
  format_properties int_overflow i ps fr =
  match collect_properties int_overflow (frame_solverSolution fr)
                           (frame_propertyRenovationVariables fr) ps with
  | Ok l => Ok (tt, set_assigned (assigned fr ++ l) fr)
  | Panic e => Panic e
  end.
Proof.
  induction ps as [|p ps IH]; intros i fr Hd.
  - simpl. unfold ret. by rewrite app_nil_r, set_assigned_id.
  - apply drop_cons_lookup in Hd as [Hp Hd].
    cbn [format_properties collect_properties]. unfold bind at 1.
    rewrite (format_renovations_spec i p _ 0 fr Hp) by done.
    destruct (collect _ _ _ p 0 _) as [l|e]; [|done].
    rewrite IH by done. simpl.
    destruct (collect_properties _ _ _ ps) as [tl|e]; [|done].
    by rewrite set_assigned_twice, <- app_assoc.
Qed.

(** [format] on a frame: the result, and the frame it leaves. *)
Lemma format_body_spec fr :
  format_body int_overflow fr =
  if usable (frame_solverSolution fr) then
    match collect_properties int_overflow (frame_solverSolution fr)
            (frame_propertyRenovationVariables fr) (Properties (frame_input fr)) with
    | Ok l => Ok ({| Assignments := l |}, set_assigned l fr)
    | Panic e => Panic e
    end
  else Ok ({| Assignments := [] |}, fr).
Proof.
  unfold format_body, usable.
  erewrite bind_ok by reflexivity.
  destruct (mip.IsOptimal _), (mip.IsSubOptimal _); simpl; try reflexivity.
  all: erewrite bind_ok by reflexivity.
  all: erewrite bind_ok by reflexivity.
  all: unfold bind at 1; rewrite format_properties_spec by done; simpl.
  all: destruct (collect_properties _ _ _ _) as [l|e]; [|done].
  all: erewrite bind_ok by reflexivity; reflexivity.
Qed.

Lemma format_spec input solverSolution vars :
  format int_overflow input solverSolution vars =
  if usable solverSolution then
    match collect_properties int_overflow solverSolution vars (Properties input) with
    | Ok l => Ok {| Assignments := l |}
    | Panic e => Panic e
    end
  else Ok {| Assignments := [] |}.
Proof.
  unfold format. rewrite format_body_spec. simpl.
  destruct (usable solverSolution); [|done].
  by destruct (collect_properties _ _ _ _).
Qed.

Section Collected.
Variable solverSolution : mip.Solution.
Variable vars : gmap string (list mip.Var).

#[local] Abbreviation collect' := (collect int_overflow solverSolution vars).
#[local] Abbreviation collect_properties' := (collect_properties int_overflow solverSolution vars).
#[local] Abbreviation is_selected' := (is_selected int_overflow solverSolution vars).
#[local] Abbreviation selected_from' := (selected_from int_overflow solverSolution vars).
#[local] Abbreviation selected_of' := (selected_of int_overflow solverSolution vars).
#[local] Abbreviation selected_assignments' := (selected_assignments int_overflow solverSolution vars).

Lemma covers_property_spec p :
  covers_property vars p = true <->
  forall j, (j < length (Property.Renovations p))%nat ->
    is_Some (var_of vars (Property.ID p) j).
Proof.
  unfold covers_property. rewrite forallb_forall. split.
  - intros H j Hj. specialize (H j). rewrite bool_decide_eq_true in H.
    apply H, in_seq. lia.
  - intros H j Hj. apply in_seq in Hj. rewrite bool_decide_eq_true. apply H. lia.
Qed.

Lemma covers_property_false p :
  covers_property vars p = false ->
  exists j, (j < length (Property.Renovations p))%nat /\
            var_of vars (Property.ID p) j = None.
Proof.
  unfold covers_property.
  assert (H : forall n first,
    forallb (fun j => bool_decide (is_Some (var_of vars (Property.ID p) j)))
            (seq first n) = false ->
    exists j, (first <= j < first + n)%nat /\ var_of vars (Property.ID p) j = None).
  { induction n as [|n IH]; intros first; simpl; [done|].
    destruct (var_of vars (Property.ID p) first) as [k|] eqn:Hk.
    - rewrite bool_decide_true by eauto. simpl. intros Hf.
      destruct (IH _ Hf) as (j & Hj & Hn). exists j. split; [lia | done].
    - intros _. exists first. split; [lia | done]. }
  intros Hf. destruct (H _ _ Hf) as (j & Hj & Hn).
  exists j. split; [|done]. lia.
Qed.

Lemma covers_spec input :
  covers input vars = true <->
  forall p, p ∈ Properties input ->
    forall j, (j < length (Property.Renovations p))%nat ->
      is_Some (var_of vars (Property.ID p) j).
Proof.
  unfold covers. rewrite forallb_forall. split.
  - intros H p Hp. apply covers_property_spec, H. by apply list_elem_of_In.
  - intros H p Hp. apply covers_property_spec, H. by apply list_elem_of_In.
Qed.

(** With a variable for the [j]-th renovation, the step decides by its
    value. *)
Lemma collect_cons_covered p j r rest k :
  var_of vars (Property.ID p) j = Some k ->
  collect' p j (r :: rest) =
  match collect' p (S j) rest with
  | Panic e => Panic e
  | Ok tl => Ok ((if is_selected' p j then [assignment_of p r] else []) ++ tl)
  end.
Proof.
  intros Hk. cbn [collect]. unfold is_selected, slice_index.
  rewrite Hk. unfold var_of in Hk.
  destruct (default [] (vars !! Property.ID p) !! j) as [[|k']|]; simplify_eq/=.
  destruct (collect _ _ _ p (S j) rest); [|done].
  rewrite Z.leb_antisym. by destruct (_ <? 1).
Qed.

(** Without one, the step panics. *)
Lemma collect_cons_uncovered p j r rest :
  var_of vars (Property.ID p) j = None ->
  exists e, collect' p j (r :: rest) = Panic e.
Proof.
  intros Hk. cbn [collect]. unfold slice_index. unfold var_of in Hk.
  destruct (default [] (vars !! Property.ID p) !! j) as [[|k']|]; simplify_eq/=; eauto.
Qed.

Lemma collect_covered p rs : forall j,
  (forall j', (j' < length rs)%nat -> is_Some (var_of vars (Property.ID p) (j + j'))) ->
  collect' p j rs = Ok (selected_from' p j rs).
Proof.
  induction rs as [|r rs IH]; intros j Hc; [done|].
  destruct (Hc 0%nat) as [k Hk]; [simpl; lia|]. rewrite Nat.add_0_r in Hk.
  rewrite (collect_cons_covered _ _ _ _ _ Hk), IH; [done|].
  intros j' Hj'. replace (S j + j')%nat with (j + S j')%nat by lia.
  apply Hc. simpl. lia.
Qed.

Lemma collect_uncovered p rs : forall j j',
  (j' < length rs)%nat -> var_of vars (Property.ID p) (j + j') = None ->
  exists e, collect' p j rs = Panic e.
Proof.
  induction rs as [|r rs IH]; intros j j' Hj' Hn; [simpl in Hj'; lia|].
  destruct (var_of vars (Property.ID p) j) as [k|] eqn:Hk.
  - rewrite (collect_cons_covered _ _ _ _ _ Hk).
    destruct j' as [|j']; [rewrite Nat.add_0_r in Hn; congruence|].
    destruct (IH (S j) j') as [e ->]; [simpl in Hj'; lia | | by eauto].
    by replace (S j + j')%nat with (j + S j')%nat by lia.
  - by apply collect_cons_uncovered.
Qed.

Lemma collect_properties_covered input :
  covers input vars = true ->
  collect_properties' (Properties input) = Ok (selected_assignments' input).
Proof.
  rewrite covers_spec. unfold selected_assignments.
  induction (Properties input) as [|p ps IH]; intros Hc; [done|].
  cbn [collect_properties].
  rewrite collect_covered by (intros j' Hj'; apply Hc; [left | done]).
  rewrite IH by (intros q Hq; apply Hc; by right). done.
Qed.

Lemma collect_properties_uncovered input :
  covers input vars = false ->
  exists e, collect_properties' (Properties input) = Panic e.
Proof.
  unfold covers.
  induction (Properties input) as [|p ps IH]; [done|].
  cbn [forallb collect_properties].
  destruct (covers_property vars p) eqn:Hp; simpl.
  - intros Hps. destruct (IH Hps) as [e ->].
    rewrite collect_covered by (by apply covers_property_spec). by eauto.
  - intros _. destruct (covers_property_false p Hp) as (j & Hj & Hn).
    destruct (collect_uncovered p (Property.Renovations p) 0 j Hj Hn) as [e ->].
    by eauto.
Qed.

#[local] Abbreviation positions_from' := (positions_from int_overflow solverSolution vars).
#[local] Abbreviation selected_positions_from' :=
  (selected_positions_from int_overflow solverSolution vars).
#[local] Abbreviation selected_positions' :=
  (selected_positions int_overflow solverSolution vars).

(** The selected positions of one property. *)
Lemma elem_of_positions_from i p rs : forall j i' j',
  (i', j') ∈ positions_from' i p j rs <->
  i' = i /\ (j <= j' < j + length rs)%nat /\ is_selected' p j' = true.
Proof.
  induction rs as [|r rs IH]; intros j i' j'; simpl.
  - rewrite elem_of_nil. lia.
  - rewrite elem_of_app, IH.
    destruct (is_selected _ _ _ p j) eqn:Hs.
    + rewrite list_elem_of_singleton. split.
      * intros [[= -> ->]|(-> & ? & ?)]; (split_and!; (done || lia)).
      * intros (-> & Hj & Hs').
        destruct (decide (j' = j)) as [->|]; [by left|right].
        split_and!; (done || lia).
    + rewrite elem_of_nil. split.
      * intros [[]|(-> & ? & ?)]. split_and!; (done || lia).
      * intros (-> & Hj & Hs').
        destruct (decide (j' = j)) as [->|]; [congruence|right].
        split_and!; (done || lia).
Qed.

Lemma elem_of_selected_positions_from ps : forall i i' j',
  (i', j') ∈ selected_positions_from' i ps <->
  exists p, (i <= i')%nat /\ ps !! (i' - i)%nat = Some p /\
            (j' < length (Property.Renovations p))%nat /\ is_selected' p j' = true.
Proof.
  induction ps as [|p ps IH]; intros i i' j'; simpl.
  - rewrite elem_of_nil. split; [done|]. by intros (p & _ & ? & _).
  - rewrite elem_of_app, elem_of_positions_from, IH. split.
    + intros [(-> & Hj & Hs)|(q & Hi & Hq & Hj & Hs)].
      * exists p. rewrite Nat.sub_diag. split_and!; (done || lia).
      * exists q. replace (i' - i)%nat with (S (i' - S i)) by lia.
        split_and!; (done || lia).
    + intros (q & Hi & Hq & Hj & Hs).
      destruct (decide (i' = i)) as [->|Hne].
      * rewrite Nat.sub_diag in Hq. simplify_eq/=. left. split_and!; (done || lia).
      * right. exists q. replace (i' - i)%nat with (S (i' - S i)) in Hq by lia.
        split_and!; (done || lia).
Qed.

(** A position is among the selected ones exactly when it is the position
    of a pair of the input whose variable is selected. *)
Lemma elem_of_selected_positions input i j :
  (i, j) ∈ selected_positions' input <->
  exists p r, Properties input !! i = Some p /\ Property.Renovations p !! j = Some r /\
              is_selected' p j = true.
Proof.
  unfold selected_positions. rewrite elem_of_selected_positions_from.
  rewrite Nat.sub_0_r. split.
  - intros (p & _ & Hp & Hj & Hs).
    destruct (lookup_lt_is_Some_2 _ _ Hj) as [r Hr]. by exists p, r.
  - intros (p & r & Hp & Hr & Hs). exists p.
    apply lookup_lt_Some in Hr. split_and!; (done || lia).
Qed.

(** The selected positions are listed in input order. *)
Lemma positions_from_sorted i p rs : forall j,
  StronglySorted position_lt (positions_from' i p j rs).
Proof.
  induction rs as [|r rs IH]; intros j; simpl; [constructor|].
  apply StronglySorted_app_2; [|destruct (is_selected _ _ _ _ _)|apply IH].
  - intros [i1 j1] [i2 j2] H1 H2.
    apply elem_of_positions_from in H2 as (-> & ? & _).
    destruct (is_selected _ _ _ _ _); [|by apply elem_of_nil in H1].
    apply list_elem_of_singleton in H1 as [= -> ->]. right. simpl. lia.
  - repeat constructor.
  - constructor.
Qed.

Lemma selected_positions_from_sorted ps : forall i,
  StronglySorted position_lt (selected_positions_from' i ps).
Proof.
  induction ps as [|p ps IH]; intros i; simpl; [constructor|].
  apply StronglySorted_app_2; [|apply positions_from_sorted|apply IH].
  intros [i1 j1] [i2 j2] H1 H2.
  apply elem_of_positions_from in H1 as (-> & _ & _).
  apply elem_of_selected_positions_from in H2 as (q & ? & _).
  left. simpl. lia.
Qed.

(** The records of the selected renovations are the records of the input
    at the selected positions. *)
Lemma selected_from_positions input i p rs : forall j,
  Properties input !! i = Some p ->
  drop j (Property.Renovations p) = rs ->
  Some <$> selected_from' p j rs = assignment_at input <$> positions_from' i p j rs.
Proof.
  induction rs as [|r rs IH]; intros j Hp Hd; [done|].
  apply drop_cons_lookup in Hd as [Hr Hd]. simpl.
  rewrite !fmap_app, IH by done. f_equal.
  destruct (is_selected _ _ _ _ _); [|done].
  simpl. unfold assignment_at. simpl. by rewrite Hp, Hr.
Qed.

Lemma selected_assignments_positions input :
  Some <$> selected_assignments' input = assignment_at input <$> selected_positions' input.
Proof.
  unfold selected_assignments, selected_positions.
  assert (H : forall ps i, drop i (Properties input) = ps ->
    Some <$> concat (selected_of' <$> ps) =
    assignment_at input <$> selected_positions_from' i ps).
  { induction ps as [|p ps IH]; intros i Hd; [done|].
    apply drop_cons_lookup in Hd as [Hp Hd].
    rewrite fmap_cons. cbn [concat selected_positions_from].
    rewrite !fmap_app, (IH (S i)) by done. f_equal.
    by apply selected_from_positions. }
  by apply H.
Qed.

End Collected.

(** With unique IDs the builder's map has a variable for every pair. *)
Lemma index_of_covers input :
  unique_ids input -> covers input (index_of input) = true.
Proof.
  intros Hu. apply covers_spec. intros p Hp j Hj.
  apply list_elem_of_lookup in Hp as [i Hp].
  destruct (lookup_lt_is_Some_2 _ _ Hj) as [r Hr].
  rewrite (var_of_index_of_unique input i p j r); eauto.
Qed.

(** ** The result of [format] *)

Lemma format_unusable input solverSolution vars :
  usable solverSolution = false ->
  format int_overflow input solverSolution vars = Ok {| Assignments := [] |}.
Proof. intros Hu. by rewrite format_spec, Hu. Qed.

Lemma format_covered input solverSolution vars :
  usable solverSolution = true -> covers input vars = true ->
  format int_overflow input solverSolution vars =
  Ok {| Assignments := selected_assignments int_overflow solverSolution vars input |}.
Proof. intros Hu Hc. by rewrite format_spec, Hu, collect_properties_covered. Qed.

Lemma format_uncovered input solverSolution vars :
  usable solverSolution = true -> covers input vars = false ->
  exists e, format int_overflow input solverSolution vars = Panic e.
Proof.
  intros Hu Hc. rewrite format_spec, Hu.
  destruct (collect_properties_uncovered solverSolution vars input Hc) as [e ->]. eauto.
Qed.

(** C2. When the solver result is neither optimal nor suboptimal, [format]
    returns the solution without assignments, and does not panic. When
    it is optimal or suboptimal, [format] runs its loops: it returns the
    assignments of the selected pairs when the map has a variable for
    every pair, and panics otherwise. *)
Theorem format_status (input : input) (solverSolution : mip.Solution)
    (vars : gmap string (list mip.Var)) :
  match mip.IsOptimal solverSolution || mip.IsSubOptimal solverSolution,
        covers input vars with
  | false, _ =>
      format int_overflow input solverSolution vars = Ok {| Assignments := [] |}
  | true, true =>
      format int_overflow input solverSolution vars =
      Ok {| Assignments := selected_assignments int_overflow solverSolution vars input |}
  | true, false =>
      exists e, format int_overflow input solverSolution vars = Panic e
  end.
Proof.
  destruct (mip.IsOptimal solverSolution || mip.IsSubOptimal solverSolution) eqn:Hu.
  - destruct (covers input vars) eqn:Hc.
    + by apply format_covered.
    + by apply format_uncovered.
  - by apply format_unusable.
Qed.

(** C3. For a usable solver result and a map with a variable for every
    pair, [format] returns the records at the selected positions, and the
    position of a pair is selected if and only if the value of its
    variable, rounded by [int(math.Round(_))], is 1 or more. For a finite
    value of magnitude at most 2^62 that is: if and only if the value is
    1/2 or more. The float 0.999999 is selected; a value that rounds to 0
    is not. *)
Theorem format_selects (input : input) (solverSolution : mip.Solution)
    (vars : gmap string (list mip.Var)) :
  usable solverSolution = true ->
  covers input vars = true ->
  exists out,
    format int_overflow input solverSolution vars = Ok out /\
    Some <$> Assignments out =
      assignment_at input <$> selected_positions int_overflow solverSolution vars input /\
    forall i p j r,
      Properties input !! i = Some p -> Property.Renovations p !! j = Some r ->
      exists k,
        var_of vars (Property.ID p) j = Some k /\
        let x := mip.Values solverSolution k in
        let selected :=
          (i, j) ∈ selected_positions int_overflow solverSolution vars input in
        (selected <-> 1 <= rounded int_overflow x) /\
        (Float64.is_finite x = true ->
         (Qabs (Float64.to_Q x) <= inject_Z (2 ^ 62))%Q ->
         (selected <-> (1 # 2 <= Float64.to_Q x)%Q)) /\
        (x = Float64.near_one -> selected) /\
        (rounded int_overflow x = 0 -> ~ selected).
Proof.
  intros Hu Hc. eexists. split; [by apply format_covered|].
  split; [apply selected_assignments_positions|].
  intros i p j r Hp Hr.
  destruct (proj1 (covers_spec vars input) Hc p) with (j := j) as [k Hk].
  { by eapply list_elem_of_lookup_2. }
  { by eapply lookup_lt_Some. }
  exists k. split; [done|]. cbv zeta.
  assert (Hsel : (i, j) ∈ selected_positions int_overflow solverSolution vars input
                 <-> 1 <= rounded int_overflow (mip.Values solverSolution k)).
  { rewrite elem_of_selected_positions. unfold is_selected. split.
    - intros (p' & r' & Hp' & Hr' & Hs). simplify_eq. rewrite Hk in Hs. lia.
    - intros Hx. exists p, r. rewrite Hk. split_and!; [done..|lia]. }
  split; [done|]. split; [|split].
  - intros Hf Hb. rewrite Hsel. by apply rounded_ge_1.
  - intros Hx. rewrite Hsel, Hx, rounded_near_one. lia.
  - intros Hx. rewrite Hsel, Hx. lia.
Qed.

(** The selected records are among the records of all pairs, in the same
    order. *)
Lemma selected_assignments_sublist input solverSolution vars :
  selected_assignments int_overflow solverSolution vars input
    `sublist_of` all_assignments input.
Proof.
  unfold selected_assignments, all_assignments.
  induction (Properties input) as [|p ps IH]; [done|].
  rewrite !fmap_cons. cbn [concat]. apply sublist_app; [|done].
  unfold selected_of. generalize 0%nat.
  induction (Property.Renovations p) as [|r rs IHr]; intros j; [done|].
  simpl. destruct (is_selected _ _ _ _ _); simpl.
  - by apply sublist_skip.
  - by apply sublist_cons.
Qed.

(** C4. For a usable solver result and a map with a variable for every
    pair, the assignments [format] returns are the records of the selected
    positions, listed by increasing property index and, within a property,
    by increasing renovation index: a subsequence of the records of all
    pairs in input order, whatever the costs and effects. *)
Theorem format_input_order (input : input) (solverSolution : mip.Solution)
    (vars : gmap string (list mip.Var)) :
  usable solverSolution = true ->
  covers input vars = true ->
  exists out,
    format int_overflow input solverSolution vars = Ok out /\
    Some <$> Assignments out =
      assignment_at input <$> selected_positions int_overflow solverSolution vars input /\
    StronglySorted position_lt
      (selected_positions int_overflow solverSolution vars input) /\
    Assignments out `sublist_of` all_assignments input.
Proof.
  intros Hu Hc. eexists. split; [by apply format_covered|]. simpl.
  split; [apply selected_assignments_positions|].
  split; [apply selected_positions_from_sorted|].
  apply selected_assignments_sublist.
Qed.

Lemma fmap_Some_eq_Forall {A B} (f : B -> option A) (l : list A) : forall xs,
  Some <$> l = f <$> xs -> Forall (fun a => exists x, x ∈ xs /\ f x = Some a) l.
Proof.
  induction l as [|a l IH]; intros [|x xs] Heq; simplify_eq/=; constructor.
  - exists x. split; [left | done].
  - eapply Forall_impl; [by apply IH|].
    intros a' (x' & Hx' & Hf). exists x'. split; [by right | done].
Qed.

(** C7. Every assignment [format] returns is the record of a selected
    pair of the input: the ID of the property, the ID, the cost and the
    effect of the renovation, as the input has them. The solver result
    decides which pairs are selected and nothing else: a second usable
    result that selects the same positions gives the same assignments. *)
Theorem format_copies_input (input : input) (solverSolution : mip.Solution)
    (vars : gmap string (list mip.Var)) :
  usable solverSolution = true ->
  covers input vars = true ->
  exists out,
    format int_overflow input solverSolution vars = Ok out /\
    Forall (fun a =>
              exists i p j r,
                Properties input !! i = Some p /\
                Property.Renovations p !! j = Some r /\
                (i, j) ∈ selected_positions int_overflow solverSolution vars input /\
                assignments.Property a = Property.ID p /\
                assignments.RenovationID a = Renovation.ID r /\
                assignments.Cost a = Renovation.Cost r /\
                assignments.Effect a = Renovation.Effect r)
           (Assignments out) /\
    forall solverSolution',
      usable solverSolution' = true ->
      selected_positions int_overflow solverSolution' vars input =
      selected_positions int_overflow solverSolution vars input ->
      format int_overflow input solverSolution' vars = Ok out.
Proof.
  intros Hu Hc. eexists. split; [by apply format_covered|]. simpl. split.
  - eapply Forall_impl.
    { apply (fmap_Some_eq_Forall (assignment_at input)),
        selected_assignments_positions. }
    intros a ([i j] & Hij & Ha). unfold assignment_at in Ha. simpl in Ha.
    destruct (Properties input !! i) as [p|] eqn:Hp; [|done].
    destruct (Property.Renovations p !! j) as [r|] eqn:Hr; simplify_eq/=.
    by exists i, p, j, r.
  - intros sol' Hu' Hpos. rewrite format_covered by done. do 2 f_equal.
    apply (inj (fmap Some)).
    by rewrite !selected_assignments_positions, Hpos.
Qed.

(** C9. [format] leaves its three arguments as they were, and a second
    call on them gives the result of the first: the same solution, or the
    same panic. *)
Theorem format_pure (input : input) (solverSolution : mip.Solution)
    (vars : gmap string (list mip.Var)) :
  match format_body int_overflow (enter input solverSolution vars) with
  | Ok (out, fr) =>
      frame_input fr = input /\
      frame_solverSolution fr = solverSolution /\
      frame_propertyRenovationVariables fr = vars /\
      format int_overflow input solverSolution vars = Ok out /\
      format int_overflow (frame_input fr) (frame_solverSolution fr)
             (frame_propertyRenovationVariables fr) = Ok out
  | Panic e =>
      format int_overflow input solverSolution vars = Panic e
  end.
Proof.
  unfold format. rewrite format_body_spec. simpl.
  destruct (usable solverSolution) eqn:Hu.
  - destruct (collect_properties _ _ _ _) as [l|e] eqn:Hl; simpl; [|done].
    rewrite format_body_spec. simpl. by rewrite Hu, Hl.
  - simpl. rewrite format_body_spec. simpl. by rewrite Hu.
Qed.

End FormatFacts.

(** * Properties of a feasible solver result *)

Section FeasibleFacts.
Variable int_overflow : float64 -> Z.
Variable solverSolution : mip.Solution.

#[local] Abbreviation x k := (rounded int_overflow (mip.Values solverSolution k)).
#[local] Abbreviation lhs' := (lhs int_overflow solverSolution).

Lemma binary_spec n :
  binary int_overflow solverSolution n = true <->
  forall k, (k < n)%nat -> x k = 0 \/ x k = 1.
Proof.
  unfold binary. rewrite forallb_forall. split.
  - intros H k Hk. specialize (H k). rewrite in_seq in H.
    destruct (orb_prop _ _ (H ltac:(lia))) as [H'|H']; [left|right]; lia.
  - intros H k Hk. apply in_seq in Hk. destruct (H k) as [-> | ->]; [lia|done..].
Qed.

(** A result whose values are the floats 0 and 1 themselves is binary. *)
Lemma binary_exact n :
  (forall k, (k < n)%nat ->
     exists s, mip.Values solverSolution k = S754_zero s \/
               mip.Values solverSolution k = Float64.one) ->
  binary int_overflow solverSolution n = true.
Proof.
  intros H. apply binary_spec. intros k Hk.
  destruct (H k Hk) as [s [-> | ->]]; [left | right]; reflexivity.
Qed.

Lemma feasible_spec m :
  feasible int_overflow m solverSolution = true <->
  (forall k, (k < mip.Vars m)%nat -> x k = 0 \/ x k = 1) /\
  (forall c, c ∈ mip.Constraints m -> satisfies int_overflow solverSolution c = true).
Proof.
  unfold feasible. rewrite andb_true_iff, binary_spec, forallb_forall.
  split; intros [Hb Hc]; (split; [done|]); intros c Hin; apply Hc;
    by apply list_elem_of_In.
Qed.

Lemma to_Q_positive c : Float64.positive c = true -> (0 < Float64.to_Q c)%Q.
Proof.
  destruct c as [| | |[] m e]; try done. intros _. simpl.
  destruct (Z.leb_spec 0 e); unfold Qlt; simpl; [|lia].
  assert (0 < 2 ^ e) by lia. lia.
Qed.

Lemma to_Q_one : (Float64.to_Q Float64.one == 1)%Q.
Proof. reflexivity. Qed.

Lemma to_Q_three : (Float64.to_Q Float64.three == 3)%Q.
Proof. reflexivity. Qed.

Lemma lhs_app ts1 ts2 : (lhs' (ts1 ++ ts2) == lhs' ts1 + lhs' ts2)%Q.
Proof.
  induction ts1 as [|t ts1 IH]; simpl; [lra|]. rewrite IH. lra.
Qed.

(** The terms of a count constraint depend on the number of renovations
    only. *)
Lemma terms_of_const c first rs rs' :
  length rs = length rs' ->
  terms_of (fun _ => c) first rs = terms_of (fun _ => c) first rs'.
Proof.
  revert first rs'; induction rs as [|r rs IH]; intros first [|r' rs'] Hl;
    simplify_eq/=; [done|]. f_equal. by apply IH.
Qed.

(** The left-hand side of a count constraint counts the variables with
    the value 1. *)
Lemma lhs_count_nonneg rs : forall first,
  (forall k, (first <= k < first + length rs)%nat -> x k = 0 \/ x k = 1) ->
  (0 <= lhs' (terms_of (fun _ => Float64.one) first rs))%Q.
Proof.
  induction rs as [|r rs IH]; intros first Hb; simpl; [lra|].
  assert (0 <= lhs' (terms_of (fun _ => Float64.one) (S first) rs))%Q as Hrest.
  { apply IH. intros k Hk. apply Hb. simpl. lia. }
  rewrite to_Q_one.
  destruct (Hb first) as [-> | ->]; [simpl; lia| |]; inject_consts; lra.
Qed.

Lemma lhs_cost_nonneg rs : forall first,
  forallb (fun r => Float64.positive (Renovation.Cost r)) rs = true ->
  (forall k, (first <= k < first + length rs)%nat -> x k = 0 \/ x k = 1) ->
  (0 <= lhs' (terms_of Renovation.Cost first rs))%Q.
Proof.
  induction rs as [|r rs IH]; intros first Hp Hb; simpl; [lra|].
  simpl in Hp. apply andb_prop in Hp as [Hr Hp].
  assert (0 <= lhs' (terms_of Renovation.Cost (S first) rs))%Q as Hrest.
  { apply IH; [done|]. intros k Hk. apply Hb. simpl. lia. }
  pose proof (to_Q_positive _ Hr).
  destruct (Hb first) as [-> | ->]; [simpl; lia| |]; inject_consts; lra.
Qed.

(** With costs above zero, a budget of zero leaves every variable 0. *)
Lemma lhs_cost_zero rs : forall first,
  forallb (fun r => Float64.positive (Renovation.Cost r)) rs = true ->
  (forall k, (first <= k < first + length rs)%nat -> x k = 0 \/ x k = 1) ->
  (lhs' (terms_of Renovation.Cost first rs) <= 0)%Q ->
  forall k, (first <= k < first + length rs)%nat -> x k = 0.
Proof.
  induction rs as [|r rs IH]; intros first Hp Hb Hle k Hk; simpl in *; [lia|].
  apply andb_prop in Hp as [Hr Hp].
  assert (0 <= lhs' (terms_of Renovation.Cost (S first) rs))%Q as Hrest.
  { apply lhs_cost_nonneg; [done|]. intros k' Hk'. apply Hb. lia. }
  pose proof (to_Q_positive _ Hr).
  destruct (Hb first) as [H0 | H1]; [lia| |].
  - rewrite H0 in Hle. inject_consts.
    destruct (decide (k = first)) as [->|]; [done|].
    apply (IH (S first)); [done| |lra|lia]. intros k' Hk'. apply Hb. lia.
  - rewrite H1 in Hle. inject_consts. lra.
Qed.

(** ** A budget of zero *)

Lemma selected_from_nil vars p rs : forall j,
  (forall j', (j <= j' < j + length rs)%nat ->
     is_selected int_overflow solverSolution vars p j' = false) ->
  selected_from int_overflow solverSolution vars p j rs = [].
Proof.
  induction rs as [|r rs IH]; intros j Hs; [done|]. simpl.
  rewrite Hs by (simpl; lia). simpl. apply IH. intros j' Hj'. apply Hs. simpl. lia.
Qed.

Lemma selected_assignments_nil vars input :
  (forall p, p ∈ Properties input ->
     forall j, (j < length (Property.Renovations p))%nat ->
       is_selected int_overflow solverSolution vars p j = false) ->
  selected_assignments int_overflow solverSolution vars input = [].
Proof.
  unfold selected_assignments.
  induction (Properties input) as [|p ps IH]; intros Hs; [done|].
  rewrite fmap_cons. cbn [concat]. unfold selected_of at 1.
  rewrite selected_from_nil by (intros j' Hj'; apply Hs; [left | lia]).
  apply IH. intros q Hq. apply Hs. by right.
Qed.

(** C5, as amended. With a budget of 0 and every cost above zero, a
    feasible solver result for the built model selects nothing: [format]
    returns no assignment. *)
Theorem budget_zero_positive_costs (input : input) (m : mip.Model)
    (vars : gmap string (list mip.Var)) :
  Budget input = 0 ->
  positive_costs input = true ->
  build input = Ok (m, vars) ->
  feasible int_overflow m solverSolution = true ->
  covers input vars = true ->
  format int_overflow input solverSolution vars = Ok {| Assignments := [] |}.
Proof.
  intros Hb Hp Hbuild Hf Hc.
  rewrite build_spec in Hbuild. injection Hbuild as <- <-.
  apply feasible_spec in Hf as [Hbin Hcs].
  destruct (usable solverSolution) eqn:Hu; [|by apply format_unusable].
  rewrite format_covered by done. do 2 f_equal.
  assert (Hzero : forall k, (k < length (all_renovations (Properties input)))%nat -> x k = 0).
  { intros k Hk.
    apply (lhs_cost_zero (all_renovations (Properties input)) 0%nat);
      [done| |  |lia].
    - intros k' Hk'. apply Hbin. simpl. lia.
    - specialize (Hcs _ (list_elem_of_here _ _)).
      unfold satisfies in Hcs. simpl in Hcs. rewrite Hb in Hcs.
      by apply Qle_bool_imp_le in Hcs. }
  apply selected_assignments_nil. intros p Hp' j Hj.
  apply list_elem_of_lookup in Hp' as [i Hi].
  unfold is_selected.
  destruct (var_of (index_of input) (Property.ID p) j) as [k|] eqn:Hk; [|done].
  rewrite (Hzero k) by (by eapply var_of_index_of_lt). done.
Qed.

(** ** At most three renovations per property *)

(** The number of selected renovations among [rs] is the left-hand side
    of a count constraint over their variables. *)
Lemma length_selected_from vars p first rs : forall j,
  (forall j', (j <= j' < j + length rs)%nat ->
     var_of vars (Property.ID p) j' = Some (first + j')%nat) ->
  (forall k, (first + j <= k < first + j + length rs)%nat -> x k = 0 \/ x k = 1) ->
  (inject_Z (Z.of_nat (length (selected_from int_overflow solverSolution vars p j rs)))
   == lhs' (terms_of (fun _ => Float64.one) (first + j) rs))%Q.
Proof.
  induction rs as [|r rs IH]; intros j Hv Hb; [reflexivity|].
  cbn [selected_from terms_of lhs mip.Coefficient mip.TermVar x_of].
  rewrite length_app, Nat2Z.inj_add, inject_Z_plus.
  replace (S (first + j)) with (first + S j)%nat by lia.
  rewrite <- IH.
  2:{ intros j' Hj'. apply Hv. simpl. lia. }
  2:{ intros k Hk. apply Hb. simpl. lia. }
  unfold is_selected. rewrite Hv by (simpl; lia). rewrite to_Q_one.
  destruct (Hb (first + j)%nat) as [-> | ->]; [simpl; lia|..]; simpl;
    change (inject_Z (Z.of_nat 0)) with 0%Q; change (inject_Z (Z.of_nat 1)) with 1%Q;
    ring.
Qed.

Lemma selected_from_property vars p rs : forall j,
  Forall (fun a => assignments.Property a = Property.ID p)
         (selected_from int_overflow solverSolution vars p j rs).
Proof.
  induction rs as [|r rs IH]; intros j; simpl; [constructor|].
  apply Forall_app. split; [|apply IH].
  destruct (is_selected _ _ _ _ _); repeat constructor.
Qed.

(** Under a feasible result, [format] selects at most three renovations
    of a property. *)
Lemma length_selected_of input i p :
  feasible int_overflow (model_of input) solverSolution = true ->
  covers input (index_of input) = true ->
  Properties input !! i = Some p ->
  (length (selected_of int_overflow solverSolution (index_of input) p) <= 3)%nat.
Proof.
  intros Hf Hc Hp. apply feasible_spec in Hf as [Hbin Hcs]. simpl in Hbin.
  set (ps := Properties input) in *.
  destruct (var_of_index_of input i p 0 Hp)
    as (l & q & Hl & Hq & Hid & Hil & Hidx & _). fold ps in Hl, Hq, Hidx.
  (* the property has no more renovations than the last one with its ID *)
  assert (Hlen : (length (Property.Renovations p) <= length (Property.Renovations q))%nat).
  { destruct (Property.Renovations p) as [|r rs] eqn:Hrs; [simpl; lia|].
    pose proof (proj1 (covers_spec _ _) Hc p (list_elem_of_lookup_2 _ _ _ Hp)
                  (length rs)) as Hlast.
    rewrite Hrs in Hlast. specialize (Hlast ltac:(simpl; lia)).
    rewrite (var_of_vars_of _ _ _ _ _ Hidx) in Hlast.
    destruct (decide _) as [Hlt|]; [simpl; lia | by destruct Hlast]. }
  (* the variables of the last property are variables of the model *)
  assert (Hrange : (offset ps l + length (Property.Renovations q)
                    <= length (all_renovations ps))%nat).
  { by apply offset_bound. }
  (* the count constraint of the last property *)
  assert (Hcount : (lhs' (terms_of (fun _ => Float64.one) (offset ps l)
                                  (Property.Renovations q)) <= 3)%Q).
  { assert (Hin : {| mip.ConstraintSense := mip.LessThanOrEqual;
                     mip.RightHandSide := Float64.three;
                     mip.Terms := terms_of (fun _ => Float64.one) (offset ps l)
                                           (Property.Renovations q) |}
                  ∈ mip.Constraints (model_of input)).
    { simpl. right. eapply list_elem_of_lookup_2 with (i := l).
      rewrite lookup_count_constraints. fold ps. by rewrite Hq. }
    apply Hcs in Hin. unfold satisfies in Hin. simpl in Hin.
    apply Qle_bool_imp_le in Hin. by rewrite to_Q_three in Hin. }
  (* the selected renovations are counted by a part of its left-hand side *)
  pose proof (length_selected_from (index_of input) p (offset ps l)
                (Property.Renovations p) 0) as Hsel.
  rewrite Nat.add_0_r in Hsel.
  assert (Hq_split : Property.Renovations q =
                     take (length (Property.Renovations p)) (Property.Renovations q) ++
                     drop (length (Property.Renovations p)) (Property.Renovations q))
    by (by rewrite take_drop).
  rewrite Hq_split, terms_of_app, lhs_app in Hcount.
  rewrite (terms_of_const _ _ _ (Property.Renovations p)) in Hcount
    by (rewrite length_take; lia).
  rewrite length_take, Nat.min_l in Hcount by done.
  assert (0 <= lhs' (terms_of (fun _ => Float64.one)
                             (offset ps l + length (Property.Renovations p))
                             (drop (length (Property.Renovations p))
                                   (Property.Renovations q))))%Q as Hrest.
  { apply lhs_count_nonneg. intros k Hk. rewrite length_drop in Hk. apply Hbin. lia. }
  rewrite <- Hsel in Hcount.
  - assert (inject_Z (Z.of_nat (length
              (selected_from int_overflow solverSolution (index_of input) p 0
                             (Property.Renovations p)))) <= inject_Z 3)%Q as Hle
      by (change (inject_Z 3) with 3%Q; lra).
    rewrite <- Zle_Qle in Hle. unfold selected_of. lia.
  - intros j' Hj'. rewrite (var_of_vars_of _ _ _ _ _ Hidx).
    rewrite decide_True by lia. done.
  - intros k Hk. apply Hbin. lia.
Qed.

Lemma filter_none_length (id : string) (l : list assignments.t) :
  Forall (fun a => assignments.Property a <> id) l ->
  length (filter (fun a => assignments.Property a = id) l) = 0%nat.
Proof.
  induction 1 as [|a l Ha _ IH]; [done|].
  by rewrite filter_cons, decide_False.
Qed.

(** With unique IDs, the assignments that carry the ID of a property are
    those of its chunk. *)
Lemma count_by_id ps : forall chunks,
  Forall2 within_cap ps chunks ->
  NoDup (Property.ID <$> ps) ->
  forall p, p ∈ ps ->
    (length (filter (fun a => assignments.Property a = Property.ID p) (concat chunks))
     <= 3)%nat.
Proof.
  induction ps as [|q ps IH]; intros chunks Hc Hnd p Hp.
  { by apply elem_of_nil in Hp. }
  apply Forall2_cons_inv_l in Hc as (c & chunks' & [Hq Hlen] & Hc & ->).
  rewrite fmap_cons in Hnd. apply NoDup_cons in Hnd as [Hnotin Hnd].
  cbn [concat]. rewrite filter_app, length_app.
  apply elem_of_cons in Hp as [-> | Hp].
  - pose proof (length_filter (fun a => assignments.Property a = Property.ID q) c).
    rewrite (filter_none_length (Property.ID q) (concat chunks')); [lia|].
    clear IH Hlen Hq. induction Hc as [|p' c' ps' chunks'' [Hp' _] _ IH']; [constructor|].
    rewrite fmap_cons in Hnotin, Hnd. apply NoDup_cons in Hnd as [_ Hnd].
    apply not_elem_of_cons in Hnotin as [Hne Hnotin].
    cbn [concat]. apply Forall_app. split; [|by apply IH'].
    eapply Forall_impl; [exact Hp'|]. intros a ->. done.
  - rewrite (filter_none_length (Property.ID p) c).
    + specialize (IH chunks' Hc Hnd p Hp). lia.
    + eapply Forall_impl; [exact Hq|]. intros a -> Heq.
      apply Hnotin. rewrite Heq. apply list_elem_of_fmap. by exists p.
Qed.

(** C6. In every solution [solver] gets from [format], under a feasible
    result of the solver engine, the assignments are those of the first
    property, then those of the second, and so on, and each property has
    at most 3. With unique IDs, at most 3 assignments carry the ID of a
    property. *)
Theorem at_most_three_per_property (input : input) (m : mip.Model)
    (vars : gmap string (list mip.Var)) (out : solution) :
  build input = Ok (m, vars) ->
  (usable solverSolution = true -> feasible int_overflow m solverSolution = true) ->
  format int_overflow input solverSolution vars = Ok out ->
  exists chunks,
    Assignments out = concat chunks /\
    Forall2 within_cap (Properties input) chunks /\
    (unique_ids input ->
     forall p, p ∈ Properties input ->
       (length (filter (fun a => assignments.Property a = Property.ID p)
                       (Assignments out)) <= 3)%nat).
Proof.
  intros Hbuild Hf Hout.
  rewrite build_spec in Hbuild. injection Hbuild as <- <-.
  assert (exists chunks,
    Assignments out = concat chunks /\ Forall2 within_cap (Properties input) chunks)
    as (chunks & Hchunks & Hcap).
  { destruct (usable solverSolution) eqn:Hu.
    - destruct (covers input (index_of input)) eqn:Hc.
      + rewrite format_covered in Hout by done. injection Hout as <-.
        exists (selected_of int_overflow solverSolution (index_of input) <$> Properties input).
        split; [done|]. apply Forall2_fmap_r, Forall_Forall2_diag, Forall_lookup.
        intros i p Hp. split.
        * apply selected_from_property.
        * apply (length_selected_of input i p); auto.
      + destruct (format_uncovered int_overflow input solverSolution _ Hu Hc) as [e He].
        congruence.
    - rewrite format_unusable in Hout by done. injection Hout as <-.
      exists ((fun _ => []) <$> Properties input). split.
      + simpl. by induction (Properties input).
      + apply Forall2_fmap_r, Forall_Forall2_diag, Forall_forall. intros p _.
        split; [constructor | simpl; lia]. }
  exists chunks. split_and!; [done..|].
  intros Hu p Hp. rewrite Hchunks. by apply (count_by_id (Properties input)).
Qed.

End FeasibleFacts.

(** The amended C5 at an input: budget 0, and the costs of scenario A. *)
Lemma budget_zero_positive_costs_witness :
  format amd64_overflow
         {| Properties := Properties scenario_A; Budget := 0 |} solution_none
         (index_of {| Properties := Properties scenario_A; Budget := 0 |})
  = Ok {| Assignments := [] |}.
Proof.
  apply (budget_zero_positive_costs amd64_overflow solution_none
           {| Properties := Properties scenario_A; Budget := 0 |}
           (model_of {| Properties := Properties scenario_A; Budget := 0 |})).
  - reflexivity.
  - reflexivity.
  - vm_compute. reflexivity.
  - vm_compute. reflexivity.
  - vm_compute. reflexivity.
Defined.

(** C5 as stated fails: with budget 0, a renovation that costs nothing can
    be selected by a feasible, optimal result, and [format] returns it. *)
Lemma budget_zero_free_renovation :
  Budget free_input = 0 /\
  usable solution_all = true /\
  build free_input = Ok (model_of free_input, index_of free_input) /\
  feasible amd64_overflow (model_of free_input) solution_all = true /\
  format amd64_overflow free_input solution_all (index_of free_input) =
  Ok {| Assignments :=
          [{| assignments.Property := "P1";
              assignments.RenovationID := "r1";
              assignments.Cost := S754_zero false;
              assignments.Effect := Float64.one |}] |}.
Proof.
  split_and!; [reflexivity | reflexivity | apply build_spec | by vm_compute | by vm_compute].
Qed.

(** * Errors of the solver engine *)

Section SolverFacts.
Variable int_overflow : float64 -> Z.
Variables error Solver SolveOptions Statistics CustomResultStatistics : Type.
Variable mip_NewSolver : string -> mip.Model -> Solver + error.
Variable mip_NewSolveOptions : SolveOptions.
Variable SetMaximumDuration : Z -> SolveOptions -> SolveOptions * option error.
Variable SetMIPGapRelative : float64 -> SolveOptions -> SolveOptions * option error.
Variable SetVerbosity : mip.Verbosity -> SolveOptions -> SolveOptions.
Variable Solve : Solver -> SolveOptions -> mip.Solution + error.
Variable mip_Format : options -> solution -> mip.Solution -> schema.Output Statistics.
Variable mip_DefaultCustomResultStatistics :
  mip.Model -> mip.Solution -> CustomResultStatistics.
Variable set_Result_Custom : Statistics -> CustomResultStatistics -> result Statistics.

(** C8. When the construction of the solver, the setting of the maximum
    duration or of the relative gap, or the solve returns an error,
    [solver] returns that error with the zero output, which has no
    solution and so no assignment. It has made each call up to the failing
    one once and none after it: it does not retry, and it does not call
    [format]. *)
Theorem solver_propagates_error (input : input) (options : options) (err : error)
    (calls : list call) :
  failure error Solver SolveOptions mip_NewSolver mip_NewSolveOptions
          SetMaximumDuration SetMIPGapRelative SetVerbosity Solve
          input options err calls ->
  solver int_overflow error Solver SolveOptions Statistics CustomResultStatistics
         mip_NewSolver mip_NewSolveOptions SetMaximumDuration SetMIPGapRelative
         SetVerbosity Solve mip_Format mip_DefaultCustomResultStatistics
         set_Result_Custom input options []
  = Ok ((schema.zero, Some err), calls) /\
  schema.Solutions (schema.zero (Statistics := Statistics)) = [] /\
  NoDup calls /\ call_format ∉ calls.
Proof.
  intros Hfail.
  split; [|split; [done|]].
  - unfold solver.
    destruct Hfail as [m vars Hb Hn | m vars s o Hb Hn Hd | m vars s o1 o2 Hb Hn Hd Hg
                      | m vars s o1 o2 Hb Hn Hd Hg Hs];
      rewrite Hb; erewrite bind_ok by reflexivity; cbn [fst snd];
      erewrite bind_ok by reflexivity; rewrite Hn; try done;
      erewrite bind_ok by reflexivity; rewrite Hd; try done;
      erewrite bind_ok by reflexivity; rewrite Hg; try done;
      erewrite bind_ok by reflexivity; rewrite Hs; done.
  - destruct Hfail; split;
      repeat (apply NoDup_cons; split; [not_among|]); try apply NoDup_nil_2;
      not_among.
Qed.

End SolverFacts.

(** * Properties with the same ID *)

Section DuplicateFacts.
Variable int_overflow : float64 -> Z.

(** C10, as amended. The map the builder returns holds, for the ID of a
    property, the variables of the last property with that ID. For the
    [j]-th renovation of any property with that ID, [format] decides by the
    value of the [j]-th variable of that last property, when it has one;
    when a property has more renovations than the last one with its ID,
    [format] panics under a usable result. When [format] returns, its
    assignments are the records of the input at the selected positions.
    With unique IDs the last property with the ID of a property is that
    property, so that every pair is read through its own variable. *)
Theorem format_reads_last_with_id (input : input) (m : mip.Model)
    (vars : gmap string (list mip.Var)) (i : nat) (p : Property.t) :
  build input = Ok (m, vars) ->
  Properties input !! i = Some p ->
  exists l q,
    Properties input !! l = Some q /\
    Property.ID q = Property.ID p /\
    (i <= l)%nat /\
    (forall l' q', Properties input !! l' = Some q' ->
                   Property.ID q' = Property.ID p -> (l' <= l)%nat) /\
    vars !! Property.ID p =
      Some (vars_of (offset (Properties input) l) (length (Property.Renovations q))) /\
    (forall solverSolution j,
       (j < length (Property.Renovations p))%nat ->
       (j < length (Property.Renovations q))%nat ->
       is_selected int_overflow solverSolution vars p j =
       (1 <=? rounded int_overflow
                (mip.Values solverSolution (offset (Properties input) l + j)%nat))) /\
    (forall solverSolution,
       usable solverSolution = true ->
       (length (Property.Renovations q) < length (Property.Renovations p))%nat ->
       exists e, format int_overflow input solverSolution vars = Panic e) /\
    (forall solverSolution,
       usable solverSolution = true ->
       covers input vars = true ->
       exists out,
         format int_overflow input solverSolution vars = Ok out /\
         Some <$> Assignments out =
           assignment_at input <$>
             selected_positions int_overflow solverSolution vars input) /\
    (unique_ids input -> l = i).
Proof.
  intros Hbuild Hp. rewrite build_spec in Hbuild. injection Hbuild as <- <-.
  destruct (var_of_index_of input i p 0 Hp) as (l & q & Hl & Hq & Hid & Hil & Hidx & _).
  destruct (last_with_id_Some _ _ _ Hl) as (q' & Hq' & _ & Hmax). simplify_eq.
  exists l, q. split_and!; try done.
  - intros sol j _ Hj. unfold is_selected.
    rewrite (var_of_vars_of _ _ _ _ _ Hidx). by rewrite decide_True.
  - intros sol Hu Hlen. apply format_uncovered; [done|].
    apply not_true_iff_false. intros Hc.
    pose proof (proj1 (covers_spec _ _) Hc p (list_elem_of_lookup_2 _ _ _ Hp)
                  (length (Property.Renovations q)) Hlen) as Hsome.
    rewrite (var_of_vars_of _ _ _ _ _ Hidx), decide_False in Hsome by lia.
    by destruct Hsome.
  - intros sol Hu Hc. eexists. split; [by apply format_covered|].
    apply selected_assignments_positions.
  - intros Hu. rewrite (last_with_id_unique _ i p Hu Hp) in Hl. congruence.
Qed.

End DuplicateFacts.

(** * The theorems at concrete inputs *)

(** C1 at scenario A: three variables, and the count constraint of the
    property has three terms. *)
Lemma solver_model_shape_witness :
  exists (m : mip.Model) (vars : gmap string (list mip.Var)) (count : mip.Constraint),
    build scenario_A = Ok (m, vars) /\
    mip.Vars m = 3%nat /\
    mip.Constraints m !! 1%nat = Some count /\
    length (mip.Terms count) = 3%nat.
Proof.
  destruct (solver_model_shape scenario_A)
    as (m & vars & budget & Hb & Hv & _ & _ & _ & _ & _ & _ & _ & _ & Hcount & _).
  destruct (Hcount 0%nat property_A) as (count & Hc & _ & _ & Hl); [reflexivity|].
  exists m, vars, count. split; [exact Hb|]. split; [exact Hv|].
  split; [exact Hc | exact Hl].
Defined.

(** C3 at scenario A: the first renovation has the value 1, the second the
    value 0.999999, the third the value 0. *)
Lemma format_selects_witness :
  exists out,
    format amd64_overflow scenario_A solution_A (index_of scenario_A) = Ok out /\
    Some <$> Assignments out = assignment_at scenario_A <$> [(0, 0); (0, 1)]%nat.
Proof.
  destruct (format_selects amd64_overflow scenario_A solution_A (index_of scenario_A))
    as (out & Hout & Hpos & _).
  - reflexivity.
  - reflexivity.
  - exists out. split; [exact Hout | exact Hpos].
Defined.

(** C4 at scenario A. *)
Lemma format_input_order_witness :
  exists out,
    format amd64_overflow scenario_A solution_A (index_of scenario_A) = Ok out /\
    Assignments out `sublist_of` all_assignments scenario_A.
Proof.
  destruct (format_input_order amd64_overflow scenario_A solution_A (index_of scenario_A))
    as (out & Hout & _ & _ & Hsub).
  - reflexivity.
  - reflexivity.
  - exists out. split; [exact Hout | exact Hsub].
Defined.

(** C7 at scenario A. *)
Lemma format_copies_input_witness :
  exists out,
    format amd64_overflow scenario_A solution_A (index_of scenario_A) = Ok out /\
    format amd64_overflow scenario_A solution_all (index_of scenario_A) <> Ok out.
Proof.
  destruct (format_copies_input amd64_overflow scenario_A solution_A (index_of scenario_A))
    as (out & Hout & _ & _).
  - reflexivity.
  - reflexivity.
  - exists out. split; [exact Hout|].
    vm_compute in Hout. injection Hout as <-. vm_compute. discriminate.
Defined.

(** C6 at scenario A. *)
Lemma at_most_three_per_property_witness :
  exists chunks,
    Assignments plan_A = concat chunks /\
    Forall2 within_cap (Properties scenario_A) chunks.
Proof.
  destruct (at_most_three_per_property amd64_overflow solution_A scenario_A
              (model_of scenario_A) (index_of scenario_A) plan_A)
    as (chunks & Hc & Hcap & _).
  - vm_compute. reflexivity.
  - intros _. vm_compute. reflexivity.
  - vm_compute. reflexivity.
  - exists chunks. split; [exact Hc | exact Hcap].
Defined.

(** C8 at scenario A, with a solver engine whose solve fails. *)
Lemma solver_propagates_error_witness :
  solver amd64_overflow string unit unit unit unit
         any_provider tt accepted accepted (fun _ o => o) failing_Solve
         (fun _ out _ => {| schema.Solutions := [out]; schema.Statistics_ := Some tt |})
         (fun _ _ => tt) (fun st _ => Ok st)
         scenario_A default_options []
  = Ok ((schema.zero, Some "solve failed"%string),
        [call_NewSolver; call_SetMaximumDuration; call_SetMIPGapRelative; call_Solve]).
Proof.
  apply (solver_propagates_error amd64_overflow string unit unit unit unit
           any_provider tt accepted accepted (fun _ o => o) failing_Solve).
  apply (failure_Solve string unit unit any_provider tt accepted accepted
           (fun _ o => o) failing_Solve scenario_A default_options "solve failed"%string
           (model_of scenario_A) (index_of scenario_A) tt tt tt);
    vm_compute; reflexivity.
Defined.

(** C10, as amended, at an input whose two properties have the same ID,
    the first with fewer renovations: the map holds the variables of the
    second. *)
Lemma format_reads_last_with_id_witness :
  exists l q,
    Properties duplicate_input' !! l = Some q /\
    Property.ID q = "A"%string /\
    index_of duplicate_input' !! "A"%string =
      Some (vars_of (offset (Properties duplicate_input') l)
                    (length (Property.Renovations q))).
Proof.
  destruct (format_reads_last_with_id amd64_overflow duplicate_input'
              (model_of duplicate_input') (index_of duplicate_input') 0
              {| Property.ID := "A"; Property.Renovations := [renovation "r1" 1 1] |})
    as (l & q & Hq & Hid & _ & _ & Hidx & _).
  - vm_compute. reflexivity.
  - reflexivity.
  - exists l, q. split; [exact Hq | split; [exact Hid | exact Hidx]].
Defined.

(** C10 as stated fails: the two properties of [duplicate_input] have the
    same ID and the first has two renovations, the last one. The map has
    no variable for the second renovation of the first property, and
    [format] panics on the index instead of reading a value of the last
    property. *)
Lemma duplicate_ids_panic :
  Property.ID <$> Properties duplicate_input = ["A"; "A"]%string /\
  build duplicate_input = Ok (model_of duplicate_input, index_of duplicate_input) /\
  index_of duplicate_input !! "A"%string = Some [mip.bool_Var 2] /\
  usable solution_all = true /\
  format amd64_overflow duplicate_input solution_all (index_of duplicate_input)
  = Panic IndexOutOfRange.
Proof. split_and!; by vm_compute. Qed.

(** C2 at scenario A, for a result that is neither optimal nor
    suboptimal. *)
Lemma format_status_witness :
  format amd64_overflow scenario_A solution_infeasible (index_of scenario_A)
  = Ok {| Assignments := [] |}.
Proof.
  exact (format_status amd64_overflow scenario_A solution_infeasible (index_of scenario_A)).
Defined.

(** C9 at scenario A: the call returns the plan, and leaves its arguments
    for a second call that returns it again. *)
Lemma format_pure_witness :
  format amd64_overflow scenario_A solution_A (index_of scenario_A) = Ok plan_A.
Proof.
  pose proof (format_pure amd64_overflow scenario_A solution_A (index_of scenario_A)) as H.
  destruct (format_body amd64_overflow (enter scenario_A solution_A (index_of scenario_A)))
    as [[out fr]|e] eqn:Hrun.
  - destruct H as (_ & _ & _ & Hfirst & _).
    vm_compute in Hrun. injection Hrun as <- _. exact Hfirst.
  - vm_compute in Hrun. discriminate Hrun.
Defined.

(** * Further properties of the model builder *)

Section BuilderMore.

Lemma last_with_id_None id ps :
  last_with_id id ps = None <-> id ∉ Property.ID <$> ps.
Proof.
  induction ps as [|q ps IH]; cbn [last_with_id].
  - split; [intros _; apply not_elem_of_nil | done].
  - rewrite fmap_cons, not_elem_of_cons.
    destruct (last_with_id id ps) as [l|].
    + split; [done|]. intros [_ Hn]. by apply IH in Hn.
    + destruct (decide (Property.ID q = id)) as [Heq|Hne].
      * split; [done|]. intros [Hn _]. by destruct Hn.
      * split; [|done]. intros _. split; [done|]. by apply IH.
Qed.

Lemma vars_of_bool first n :
  Forall (fun v => exists k, v = mip.bool_Var k /\ (first <= k < first + n)%nat)
         (vars_of first n).
Proof.
  apply Forall_lookup. intros j v Hv.
  assert (j < n)%nat as Hj.
  { apply lookup_lt_Some in Hv. by rewrite length_vars_of in Hv. }
  rewrite lookup_vars_of in Hv by done. injection Hv as <-.
  exists (first + j)%nat. split; [done | lia].
Qed.

(** X1. The map the builder returns has an entry exactly for the IDs of
    the input; the entry of an ID holds the variables of a property with
    that ID, one per renovation, in order. No entry holds the nil variable
    the slices are made with, and every variable it holds is a variable of
    the model. *)
Theorem build_map_invariant (input : input) (m : mip.Model)
    (vars : gmap string (list mip.Var)) :
  build input = Ok (m, vars) ->
  (forall id, is_Some (vars !! id) <-> id ∈ Property.ID <$> Properties input) /\
  (forall id l, vars !! id = Some l ->
     (exists i p,
        Properties input !! i = Some p /\ Property.ID p = id /\
        l = vars_of (offset (Properties input) i) (length (Property.Renovations p))) /\
     Forall (fun v => exists k, v = mip.bool_Var k /\ (k < mip.Vars m)%nat) l) /\
  nil_free vars.
Proof.
  intros Hb. rewrite build_spec in Hb. injection Hb as <- <-.
  assert (Hentry : forall id l, index_of input !! id = Some l ->
    exists i p,
      Properties input !! i = Some p /\ Property.ID p = id /\
      l = vars_of (offset (Properties input) i) (length (Property.Renovations p))).
  { intros id l. rewrite index_of_lookup.
    destruct (last_with_id id (Properties input)) as [i|] eqn:Hl; [|done].
    destruct (last_with_id_Some _ _ _ Hl) as (p & Hp & Hid & _).
    rewrite Hp. simpl. intros [= <-]. by exists i, p. }
  assert (Hvars : forall id l, index_of input !! id = Some l ->
    Forall (fun v => exists k, v = mip.bool_Var k /\
                               (k < mip.Vars (model_of input))%nat) l).
  { intros id l Hl. destruct (Hentry id l Hl) as (i & p & Hp & _ & ->).
    eapply Forall_impl; [apply vars_of_bool|].
    intros v (k & -> & Hk). exists k. split; [done|]. simpl.
    pose proof (offset_bound _ _ _ Hp). lia. }
  split_and!.
  - intros id. rewrite index_of_lookup.
    destruct (last_with_id id (Properties input)) as [i|] eqn:Hl.
    + destruct (last_with_id_Some _ _ _ Hl) as (p & Hp & Hid & _). rewrite Hp.
      split; [|by eauto]. intros _. apply list_elem_of_fmap. exists p.
      split; [done|]. by eapply list_elem_of_lookup_2.
    + apply last_with_id_None in Hl. split; [by intros [? ?] | done].
  - intros id l Hl. split; [by apply Hentry | by eapply Hvars].
  - intros id l Hl Hnil. specialize (Hvars id l Hl).
    rewrite Forall_forall in Hvars. by destruct (Hvars _ Hnil) as (k & ? & _).
Qed.

(** X2. With unique IDs, looking up a pair in the map gives the variable
    created for it: the one whose term in the objective has the effect of
    the renovation, whose term in the budget constraint has its cost, and
    whose term is the [j]-th of the count constraint of the property. *)
Theorem build_map_round_trip (input : input) (m : mip.Model)
    (vars : gmap string (list mip.Var)) (i j : nat) (p : Property.t)
    (r : Renovation.t) :
  build input = Ok (m, vars) ->
  unique_ids input ->
  Properties input !! i = Some p ->
  Property.Renovations p !! j = Some r ->
  exists k budget count,
    slice_index vars (Property.ID p) j = Ok (mip.bool_Var k) /\
    mip.ObjectiveTerms (mip.TheObjective m) !! k =
      Some {| mip.Coefficient := Renovation.Effect r; mip.TermVar := mip.bool_Var k |} /\
    mip.Constraints m !! 0%nat = Some budget /\
    mip.Terms budget !! k =
      Some {| mip.Coefficient := Renovation.Cost r; mip.TermVar := mip.bool_Var k |} /\
    mip.Constraints m !! S i = Some count /\
    mip.Terms count !! j =
      Some {| mip.Coefficient := Float64.one; mip.TermVar := mip.bool_Var k |}.
Proof.
  intros Hb Hu Hp Hr. rewrite build_spec in Hb. injection Hb as <- <-.
  pose proof (var_of_index_of_unique input i p j r Hu Hp Hr) as Hv.
  pose proof (lookup_all_renovations _ i p j r Hp Hr) as Hk.
  eexists (offset (Properties input) i + j)%nat, _, _. split_and!.
  - unfold slice_index. unfold var_of in Hv.
    destruct (default [] (index_of input !! Property.ID p) !! j) as [[|k]|];
      by simplify_eq.
  - simpl. by rewrite lookup_terms_of, Hk.
  - reflexivity.
  - simpl. by rewrite lookup_terms_of, Hk.
  - simpl. rewrite lookup_count_constraints, Hp. reflexivity.
  - simpl. by rewrite lookup_terms_of, Hr.
Qed.

Lemma terms_of_ok coef n rs : forall first,
  (first + length rs <= n)%nat -> Forall (term_ok n) (terms_of coef first rs).
Proof.
  induction rs as [|r rs IH]; intros first Hn; simpl in *; constructor.
  - exists first. split; [done | lia].
  - apply IH. lia.
Qed.

Lemma count_constraints_ok n ps : forall first,
  (first + length (all_renovations ps) <= n)%nat ->
  Forall (fun c => Forall (term_ok n) (mip.Terms c)) (count_constraints first ps).
Proof.
  induction ps as [|p ps IH]; intros first Hn; simpl; constructor.
  - simpl. apply terms_of_ok. rewrite all_renovations_cons, length_app in Hn. lia.
  - apply IH. rewrite all_renovations_cons, length_app in Hn. lia.
Qed.

(** X3. Every term of the objective and of every constraint of the built
    model refers to a variable the model has: no term holds the nil
    variable or an index the model does not have. *)
Theorem build_model_ok (input : input) (m : mip.Model)
    (vars : gmap string (list mip.Var)) :
  build input = Ok (m, vars) -> model_ok m.
Proof.
  intros Hb. rewrite build_spec in Hb. injection Hb as <- <-.
  split; simpl.
  - by apply terms_of_ok.
  - constructor; simpl.
    + by apply terms_of_ok.
    + by apply count_constraints_ok.
Qed.

Lemma all_renovations_app ps1 ps2 :
  all_renovations (ps1 ++ ps2) = all_renovations ps1 ++ all_renovations ps2.
Proof. unfold all_renovations. by rewrite fmap_app, concat_app. Qed.

Lemma count_constraints_app ps1 ps2 : forall first,
  count_constraints first (ps1 ++ ps2) =
  count_constraints first ps1 ++
  count_constraints (first + length (all_renovations ps1)) ps2.
Proof.
  induction ps1 as [|p ps1 IH]; intros first; simpl.
  - by rewrite Nat.add_0_r.
  - rewrite IH, all_renovations_cons, length_app. by rewrite Nat.add_assoc.
Qed.

Lemma index_from_app ps1 ps2 : forall first vars,
  index_from first (ps1 ++ ps2) vars =
  index_from (first + length (all_renovations ps1)) ps2 (index_from first ps1 vars).
Proof.
  induction ps1 as [|p ps1 IH]; intros first vars; simpl.
  - by rewrite Nat.add_0_r.
  - rewrite IH, all_renovations_cons, length_app. by rewrite Nat.add_assoc.
Qed.

(** X4. Properties added after those of an input leave what the builder
    made for the input in place: the variables keep their indices, the
    terms of the objective and of the budget constraint and the count
    constraints of the input come first in those of the longer input, and
    the map is the same at every ID that no added property has. *)
Theorem build_extend (input : input) (more : list Property.t)
    (m m' : mip.Model) (vars vars' : gmap string (list mip.Var)) :
  build input = Ok (m, vars) ->
  build (extend input more) = Ok (m', vars') ->
  mip.Vars m' = (mip.Vars m + length (all_renovations more))%nat /\
  mip.ObjectiveTerms (mip.TheObjective m)
    `prefix_of` mip.ObjectiveTerms (mip.TheObjective m') /\
  (exists budget budget',
     mip.Constraints m !! 0%nat = Some budget /\
     mip.Constraints m' !! 0%nat = Some budget' /\
     mip.RightHandSide budget' = mip.RightHandSide budget /\
     mip.Terms budget `prefix_of` mip.Terms budget') /\
  tail (mip.Constraints m) `prefix_of` tail (mip.Constraints m') /\
  (forall id, id ∉ Property.ID <$> more -> vars' !! id = vars !! id).
Proof.
  intros Hb Hb'. rewrite build_spec in Hb, Hb'.
  injection Hb as <- <-. injection Hb' as <- <-.
  unfold model_of, index_of, extend. simpl.
  rewrite all_renovations_app, !terms_of_app, length_app, count_constraints_app,
    index_from_app.
  split_and!.
  - done.
  - by apply prefix_app_r.
  - eexists _, _. split_and!; [done..|]. simpl. by apply prefix_app_r.
  - by apply prefix_app_r.
  - intros id Hid. rewrite index_from_lookup.
    apply last_with_id_None in Hid. by rewrite Hid.
Qed.

End BuilderMore.

(** * Further properties of a feasible solver result *)

Section FeasibleMore.
Variable int_overflow : float64 -> Z.
Variable solverSolution : mip.Solution.

#[local] Abbreviation xv k := (rounded int_overflow (mip.Values solverSolution k)).
#[local] Abbreviation lhs_ := (lhs int_overflow solverSolution).

Lemma to_Q_nonnegative c : nonnegative c = true -> (0 <= Float64.to_Q c)%Q.
Proof.
  destruct c as [s| | |[] m e]; try done; intros _; simpl.
  destruct (Z.leb_spec 0 e); unfold Qle; simpl; [|lia].
  assert (0 < 2 ^ e) by lia. lia.
Qed.

(** The float of an integer that is not below zero is not below zero. *)
Lemma to_Q_of_int_nonneg n : 0 <= n -> (0 <= Float64.to_Q (Float64.of_int n))%Q.
Proof.
  intros Hn. unfold Float64.of_int, binary_normalize.
  destruct n as [|m|m]; [simpl; lra| |lia].
  unfold binary_round. destruct (shl_align _ _ _) as [mz ez].
  unfold binary_round_aux.
  destruct (shr_fexp _ _ _ _ _) as [mrs' e'].
  destruct (shr_fexp _ _ _ _ _) as [mrs'' e''].
  destruct (shr_m mrs'') as [|q|q]; [simpl; lra| |simpl; lra].
  destruct (e'' <=? _); [|simpl; lra].
  by apply to_Q_nonnegative.
Qed.

(** A left-hand side over variables that are all 0 is 0. *)
Lemma lhs_zero n ts :
  Forall (term_ok n) ts ->
  (forall k, (k < n)%nat -> xv k = 0) ->
  (lhs_ ts == 0)%Q.
Proof.
  intros Hok Hz. induction Hok as [|t ts (k & Hk & Hlt) _ IH]; simpl; [reflexivity|].
  rewrite IH, Hk. simpl. rewrite (Hz k Hlt). inject_consts. ring.
Qed.

Lemma lhs_cost_nonnegative rs : forall first,
  forallb (fun r => nonnegative (Renovation.Cost r)) rs = true ->
  (forall k, (first <= k < first + length rs)%nat -> xv k = 0 \/ xv k = 1) ->
  (0 <= lhs_ (terms_of Renovation.Cost first rs))%Q.
Proof.
  induction rs as [|r rs IH]; intros first Hp Hb; simpl; [lra|].
  simpl in Hp. apply andb_prop in Hp as [Hr Hp].
  assert (0 <= lhs_ (terms_of Renovation.Cost (S first) rs))%Q as Hrest.
  { apply IH; [done|]. intros k Hk. apply Hb. simpl. lia. }
  pose proof (to_Q_nonnegative _ Hr).
  destruct (Hb first) as [-> | ->]; [simpl; lia| |]; inject_consts; lra.
Qed.

(** X5. When the budget is not below zero, the built model has a feasible
    point whatever the costs: a solver result that gives every variable a
    value that rounds to 0 is feasible. *)
Theorem build_zero_feasible (input : input) (m : mip.Model)
    (vars : gmap string (list mip.Var)) :
  build input = Ok (m, vars) ->
  0 <= Budget input ->
  (forall k, (k < mip.Vars m)%nat -> xv k = 0) ->
  feasible int_overflow m solverSolution = true.
Proof.
  intros Hb Hbudget Hz. rewrite build_spec in Hb. injection Hb as <- <-.
  apply feasible_spec. split; [intros k Hk; left; by apply Hz|].
  intros c Hc. simpl in Hc. apply elem_of_cons in Hc as [-> | Hc].
  - unfold satisfies. simpl. apply Qle_bool_iff.
    rewrite (lhs_zero (mip.Vars (model_of input))); [| by apply terms_of_ok | done].
    by apply to_Q_of_int_nonneg.
  - pose proof (count_constraints_ok (mip.Vars (model_of input)) (Properties input) 0
                  ltac:(simpl; lia)) as Hok.
    rewrite Forall_forall in Hok. specialize (Hok c Hc).
    apply list_elem_of_lookup in Hc as [i Hi].
    rewrite lookup_count_constraints in Hi.
    destruct (Properties input !! i) as [p|]; [|done]. injection Hi as <-.
    unfold satisfies. simpl in *. apply Qle_bool_iff.
    rewrite (lhs_zero _ _ Hok Hz). by rewrite to_Q_three.
Qed.

(** X6. When the budget is below zero and no cost is, the built model is
    infeasible: no solver result is feasible for it. *)
Theorem build_negative_budget_infeasible (input : input) (m : mip.Model)
    (vars : gmap string (list mip.Var)) :
  build input = Ok (m, vars) ->
  - 2 ^ 53 < Budget input < 0 ->
  nonnegative_costs input = true ->
  feasible int_overflow m solverSolution = false.
Proof.
  intros Hb Hbudget Hcosts. rewrite build_spec in Hb. injection Hb as <- <-.
  apply not_true_iff_false. intros Hf.
  apply feasible_spec in Hf as [Hbin Hcs].
  specialize (Hcs _ (list_elem_of_here _ _)).
  unfold satisfies in Hcs. simpl in Hcs. apply Qle_bool_iff in Hcs.
  rewrite to_Q_of_int in Hcs by lia.
  assert (0 <= lhs_ (terms_of Renovation.Cost 0 (all_renovations (Properties input))))%Q
    as Hpos.
  { apply lhs_cost_nonnegative; [done|]. intros k Hk. apply Hbin. simpl. lia. }
  assert (inject_Z (Budget input) < inject_Z 0)%Q as Hneg by (rewrite <- Zlt_Qlt; lia).
  inject_consts. lra.
Qed.

Lemma total_app field l1 l2 :
  (total field (l1 ++ l2) == total field l1 + total field l2)%Q.
Proof. induction l1 as [|a l1 IH]; simpl; [lra|]. rewrite IH. lra. Qed.

Lemma offset_succ ps i p :
  ps !! i = Some p ->
  offset ps (S i) = (offset ps i + length (Property.Renovations p))%nat.
Proof.
  intros Hp. unfold offset. rewrite (take_S_r _ _ _ Hp), all_renovations_app, length_app.
  unfold all_renovations at 2. simpl. by rewrite app_nil_r.
Qed.

(** The sum of a field over the selected renovations is a left-hand side
    over their variables. *)
Lemma total_selected_from (field : assignments.t -> float64)
    (coef : Renovation.t -> float64) vars p first rs :
  (forall r, field (assignment_of p r) = coef r) ->
  forall j,
  (forall j', (j <= j' < j + length rs)%nat ->
     var_of vars (Property.ID p) j' = Some (first + j')%nat) ->
  (forall k, (first + j <= k < first + j + length rs)%nat -> xv k = 0 \/ xv k = 1) ->
  (total field (selected_from int_overflow solverSolution vars p j rs)
   == lhs_ (terms_of coef (first + j) rs))%Q.
Proof.
  intros Hfield. induction rs as [|r rs IH]; intros j Hv Hb; [reflexivity|].
  cbn [selected_from terms_of lhs mip.Coefficient mip.TermVar x_of].
  rewrite total_app.
  replace (S (first + j)) with (first + S j)%nat by lia.
  rewrite <- IH.
  2:{ intros j' Hj'. apply Hv. simpl. lia. }
  2:{ intros k Hk. apply Hb. simpl. lia. }
  unfold is_selected. rewrite Hv by (simpl; lia).
  destruct (Hb (first + j)%nat) as [-> | ->]; [simpl; lia|..]; simpl;
    rewrite ?Hfield; inject_consts; ring.
Qed.

Lemma total_selected_assignments (field : assignments.t -> float64)
    (coef : Renovation.t -> float64) input :
  (forall p r, field (assignment_of p r) = coef r) ->
  unique_ids input ->
  (forall k, (k < length (all_renovations (Properties input)))%nat ->
     xv k = 0 \/ xv k = 1) ->
  (total field (selected_assignments int_overflow solverSolution (index_of input) input)
   == lhs_ (terms_of coef 0 (all_renovations (Properties input))))%Q.
Proof.
  intros Hfield Hu Hb. unfold selected_assignments.
  assert (H : forall ps i, drop i (Properties input) = ps ->
    (total field (concat (selected_of int_overflow solverSolution (index_of input) <$> ps))
     == lhs_ (terms_of coef (offset (Properties input) i) (all_renovations ps)))%Q).
  { induction ps as [|p ps IH]; intros i Hd; [reflexivity|].
    apply drop_cons_lookup in Hd as [Hp Hd].
    rewrite fmap_cons. cbn [concat].
    rewrite total_app, all_renovations_cons, terms_of_app, lhs_app.
    rewrite (IH (S i) Hd), (offset_succ _ _ _ Hp).
    apply Qplus_comp; [|reflexivity].
    pose proof (total_selected_from field coef (index_of input) p
                  (offset (Properties input) i) (Property.Renovations p)
                  (Hfield p) 0) as Hsel.
    rewrite Nat.add_0_r in Hsel. apply Hsel.
    - intros j' Hj'. destruct (lookup_lt_is_Some_2 (Property.Renovations p) j') as [r Hr];
        [lia|]. by apply (var_of_index_of_unique input i p j' r).
    - intros k Hk. apply Hb. pose proof (offset_bound _ _ _ Hp). lia. }
  by apply (H _ 0%nat).
Qed.

(** What [format] returns when it returns. *)
Lemma format_Ok input vars out :
  format int_overflow input solverSolution vars = Ok out ->
  Assignments out =
  if usable solverSolution
  then selected_assignments int_overflow solverSolution vars input
  else [].
Proof.
  intros Hout. destruct (usable solverSolution) eqn:Hu.
  - destruct (covers input vars) eqn:Hc.
    + rewrite format_covered in Hout by done. by injection Hout as <-.
    + destruct (format_uncovered int_overflow input solverSolution vars Hu Hc) as [e He].
      congruence.
  - rewrite format_unusable in Hout by done. by injection Hout as <-.
Qed.

(** X7. With unique IDs, under a usable and feasible solver result, the
    costs of the assignments [format] returns add up to at most the
    right-hand side of the budget constraint, [float64(input.Budget)]: the
    budget itself when it is below 2^53. *)
Theorem format_within_budget (input : input) (m : mip.Model)
    (vars : gmap string (list mip.Var)) (out : solution) :
  build input = Ok (m, vars) ->
  unique_ids input ->
  usable solverSolution = true ->
  feasible int_overflow m solverSolution = true ->
  format int_overflow input solverSolution vars = Ok out ->
  (total assignments.Cost (Assignments out)
   <= Float64.to_Q (Float64.of_int (Budget input)))%Q /\
  (Z.abs (Budget input) < 2 ^ 53 ->
   (total assignments.Cost (Assignments out) <= inject_Z (Budget input))%Q).
Proof.
  intros Hb Hu Hus Hf Hout. rewrite build_spec in Hb. injection Hb as <- <-.
  apply format_Ok in Hout. rewrite Hus in Hout. rewrite Hout.
  apply feasible_spec in Hf as [Hbin Hcs].
  specialize (Hcs _ (list_elem_of_here _ _)).
  unfold satisfies in Hcs. simpl in Hcs. apply Qle_bool_iff in Hcs.
  rewrite (total_selected_assignments assignments.Cost Renovation.Cost) by done.
  split; [done|]. intros Hsmall. by rewrite <- to_Q_of_int.
Qed.

(** X8. With unique IDs, under a usable solver result whose values round
    to 0 or 1, the effects of the assignments [format] returns add up to
    the value of the objective of the built model at the rounded values:
    the plan reported is worth what the solver maximized. *)
Theorem format_total_effect (input : input) (m : mip.Model)
    (vars : gmap string (list mip.Var)) (out : solution) :
  build input = Ok (m, vars) ->
  unique_ids input ->
  usable solverSolution = true ->
  binary int_overflow solverSolution (mip.Vars m) = true ->
  format int_overflow input solverSolution vars = Ok out ->
  (total assignments.Effect (Assignments out)
   == objective_value int_overflow solverSolution m)%Q.
Proof.
  intros Hb Hu Hus Hbin Hout. rewrite build_spec in Hb. injection Hb as <- <-.
  apply format_Ok in Hout. rewrite Hus in Hout. rewrite Hout.
  rewrite binary_spec in Hbin.
  by rewrite (total_selected_assignments assignments.Effect Renovation.Effect).
Qed.

End FeasibleMore.

(** * Further properties of the formatter *)

Section FormatMore.
Variable int_overflow : float64 -> Z.

Lemma slice_index_var_of vars id j k :
  slice_index vars id j = Ok (mip.bool_Var k) -> var_of vars id j = Some k.
Proof.
  unfold slice_index, var_of.
  destruct (default [] (vars !! id) !! j) as [[|k']|]; by intros [= ->].
Qed.

(** [collect] reads the map at the positions of the renovations, and of
    the value of a variable whether it rounds below 1. *)
Lemma collect_ext solverSolution solverSolution' vars vars' p rs : forall j,
  (forall j', (j <= j' < j + length rs)%nat ->
     slice_index vars (Property.ID p) j' = slice_index vars' (Property.ID p) j') ->
  (forall j' k, (j <= j' < j + length rs)%nat ->
     var_of vars (Property.ID p) j' = Some k ->
     (rounded int_overflow (mip.Values solverSolution k) <? 1) =
     (rounded int_overflow (mip.Values solverSolution' k) <? 1)) ->
  collect int_overflow solverSolution vars p j rs =
  collect int_overflow solverSolution' vars' p j rs.
Proof.
  induction rs as [|r rs IH]; intros j Hs Hv; [done|].
  cbn [collect]. rewrite <- (Hs j) by (simpl; lia).
  rewrite <- (IH (S j)).
  2:{ intros j' Hj'. apply Hs. simpl. lia. }
  2:{ intros j' k Hj'. apply Hv. simpl. lia. }
  destruct (slice_index vars (Property.ID p) j) as [[|k]|e] eqn:Hk; [done| |done].
  simpl. destruct (collect _ _ _ p (S j) rs); [|done].
  rewrite (Hv j k); [done | simpl; lia | by apply slice_index_var_of].
Qed.

Lemma collect_properties_ext solverSolution solverSolution' vars vars' ps :
  (forall p j, p ∈ ps -> (j < length (Property.Renovations p))%nat ->
     slice_index vars (Property.ID p) j = slice_index vars' (Property.ID p) j) ->
  (forall p j k, p ∈ ps -> (j < length (Property.Renovations p))%nat ->
     var_of vars (Property.ID p) j = Some k ->
     (rounded int_overflow (mip.Values solverSolution k) <? 1) =
     (rounded int_overflow (mip.Values solverSolution' k) <? 1)) ->
  collect_properties int_overflow solverSolution vars ps =
  collect_properties int_overflow solverSolution' vars' ps.
Proof.
  induction ps as [|p ps IH]; intros Hs Hv; [done|].
  cbn [collect_properties].
  rewrite (collect_ext solverSolution solverSolution' vars vars' p _ 0).
  - rewrite IH; [done| |].
    + intros q j Hq. apply Hs. by right.
    + intros q j k Hq. apply Hv. by right.
  - intros j' Hj'. apply Hs; [left | lia].
  - intros j' k Hj'. apply Hv; [left | lia].
Qed.

(** X9. [format] reads of the input its properties only, of the solver
    result the two status queries and, for the variables the map holds for
    the pairs of the input, whether the value rounds below 1, and of the
    map the entries at the pairs: inputs, results and maps that agree on
    these give the same solution, or the same panic. *)
Theorem format_reads_only (input input' : input)
    (solverSolution solverSolution' : mip.Solution)
    (vars vars' : gmap string (list mip.Var)) :
  Properties input = Properties input' ->
  mip.IsOptimal solverSolution = mip.IsOptimal solverSolution' ->
  mip.IsSubOptimal solverSolution = mip.IsSubOptimal solverSolution' ->
  (forall p j, p ∈ Properties input -> (j < length (Property.Renovations p))%nat ->
     slice_index vars (Property.ID p) j = slice_index vars' (Property.ID p) j) ->
  (forall p j k, p ∈ Properties input -> (j < length (Property.Renovations p))%nat ->
     var_of vars (Property.ID p) j = Some k ->
     (rounded int_overflow (mip.Values solverSolution k) <? 1) =
     (rounded int_overflow (mip.Values solverSolution' k) <? 1)) ->
  format int_overflow input solverSolution vars =
  format int_overflow input' solverSolution' vars'.
Proof.
  intros Hps Ho Hso Hs Hv. rewrite !format_spec. unfold usable.
  rewrite <- Ho, <- Hso, <- Hps.
  destruct (mip.IsOptimal solverSolution || mip.IsSubOptimal solverSolution); [|done].
  by rewrite (collect_properties_ext solverSolution solverSolution' vars vars').
Qed.

Lemma selected_from_all solverSolution vars p rs : forall j,
  (forall j', (j <= j' < j + length rs)%nat ->
     is_selected int_overflow solverSolution vars p j' = true) ->
  selected_from int_overflow solverSolution vars p j rs = assignment_of p <$> rs.
Proof.
  induction rs as [|r rs IH]; intros j Hs; [done|]. simpl.
  rewrite Hs by (simpl; lia). simpl. f_equal. apply IH.
  intros j' Hj'. apply Hs. simpl. lia.
Qed.

(** X10. When the value of every variable of the map rounds to 1 or more,
    [format] returns the records of all pairs of the input, in input
    order. *)
Theorem format_all_selected (input : input) (solverSolution : mip.Solution)
    (vars : gmap string (list mip.Var)) :
  usable solverSolution = true ->
  covers input vars = true ->
  (forall p j k, p ∈ Properties input -> var_of vars (Property.ID p) j = Some k ->
     1 <= rounded int_overflow (mip.Values solverSolution k)) ->
  format int_overflow input solverSolution vars =
  Ok {| Assignments := all_assignments input |}.
Proof.
  intros Hu Hc Hall. rewrite format_covered by done. do 2 f_equal.
  unfold selected_assignments, all_assignments.
  pose proof (proj1 (covers_spec vars input) Hc) as Hcov.
  induction (Properties input) as [|p ps IH]; [done|].
  rewrite !fmap_cons. cbn [concat]. f_equal.
  - apply selected_from_all. intros j' Hj'. unfold is_selected.
    destruct (Hcov p ltac:(left) j' ltac:(lia)) as [k Hk]. rewrite Hk.
    apply Z.leb_le. by apply (Hall p j' k); [left|].
  - apply IH.
    + intros q j k Hq. apply Hall. by right.
    + intros q Hq. apply Hcov. by right.
Qed.




Lemma collect_nil_free solverSolution vars p rs : forall j e,
  nil_free vars ->
  collect int_overflow solverSolution vars p j rs = Panic e -> e = IndexOutOfRange.
Proof.
  induction rs as [|r rs IH]; intros j e Hnf; [done|].
  cbn [collect]. unfold slice_index.
  destruct (vars !! Property.ID p) as [l|] eqn:Hl; simpl.
  - destruct (l !! j) as [v|] eqn:Hv; [|by intros [= <-]].
    destruct v as [|k].
    + destruct (Hnf _ _ Hl). by eapply list_elem_of_lookup_2.
    + simpl. destruct (collect _ _ _ p (S j) rs) as [tl|e'] eqn:Hrest; [done|].
      intros [= <-]. by eapply IH.
  - by intros [= <-].
Qed.

Lemma collect_properties_nil_free solverSolution vars ps e :
  nil_free vars ->
  collect_properties int_overflow solverSolution vars ps = Panic e ->
  e = IndexOutOfRange.
Proof.
  intros Hnf. induction ps as [|p ps IH]; [done|]. cbn [collect_properties].
  destruct (collect _ _ _ p 0 _) as [l|e'] eqn:Hp.
  - destruct (collect_properties _ _ _ ps) as [tl|e'']; [done|].
    intros [= <-]. by apply IH.
  - intros [= <-]. by eapply collect_nil_free.
Qed.

Lemma format_panic_nil_free input solverSolution vars e :
  nil_free vars ->
  format int_overflow input solverSolution vars = Panic e -> e = IndexOutOfRange.
Proof.
  intros Hnf. rewrite format_spec. destruct (usable solverSolution); [|done].
  destruct (collect_properties _ _ _ _) as [l|e'] eqn:Hc; [done|].
  intros [= <-]. by eapply collect_properties_nil_free.
Qed.

(** X12. With a map that holds no nil variable, the only panic of
    [format] is the index out of range; and under a usable result it does
    panic so when the map has no entry for the ID of a property that has a
    renovation. *)
Theorem format_missing_key (input : input) (solverSolution : mip.Solution)
    (vars : gmap string (list mip.Var)) :
  nil_free vars ->
  (forall e, format int_overflow input solverSolution vars = Panic e ->
             e = IndexOutOfRange) /\
  (usable solverSolution = true ->
   forall p, p ∈ Properties input -> Property.Renovations p <> [] ->
             vars !! Property.ID p = None ->
             format int_overflow input solverSolution vars = Panic IndexOutOfRange).
Proof.
  intros Hnf. split; [intros e; by apply format_panic_nil_free|].
  intros Hu p Hp Hrs Hnone.
  assert (covers input vars = false) as Hc.
  { apply not_true_iff_false. intros Hc.
    destruct (Property.Renovations p) as [|r rs] eqn:Hr; [done|].
    destruct (proj1 (covers_spec vars input) Hc p Hp 0%nat) as [k Hk].
    { rewrite Hr. simpl. lia. }
    unfold var_of in Hk. by rewrite Hnone in Hk. }
  destruct (format_uncovered int_overflow input solverSolution vars Hu Hc) as [e He].
  rewrite He. f_equal. by eapply format_panic_nil_free.
Qed.

Lemma collect_properties_app solverSolution vars ps1 ps2 :
  collect_properties int_overflow solverSolution vars (ps1 ++ ps2) =
  match collect_properties int_overflow solverSolution vars ps1 with
  | Panic e => Panic e
  | Ok l1 =>
      match collect_properties int_overflow solverSolution vars ps2 with
      | Panic e => Panic e
      | Ok l2 => Ok (l1 ++ l2)
      end
  end.
Proof.
  induction ps1 as [|p ps1 IH]; simpl.
  - by destruct (collect_properties _ _ _ ps2).
  - destruct (collect _ _ _ p 0 _) as [l|e]; [|done]. rewrite IH.
    destruct (collect_properties _ _ _ ps1) as [l1|e]; [|done].
    destruct (collect_properties _ _ _ ps2) as [l2|e]; [|done].
    by rewrite app_assoc.
Qed.

(** X13. [format] works property by property: for an input with more
    properties after its own it returns a solution exactly when it returns
    one for the input and one for the added properties alone, and the
    assignments are those of the first followed by those of the second. *)
Theorem format_extend (input : input) (more : list Property.t)
    (solverSolution : mip.Solution) (vars : gmap string (list mip.Var))
    (out : solution) :
  format int_overflow (extend input more) solverSolution vars = Ok out <->
  exists out1 out2,
    format int_overflow input solverSolution vars = Ok out1 /\
    format int_overflow {| Properties := more; Budget := Budget input |}
           solverSolution vars = Ok out2 /\
    Assignments out = Assignments out1 ++ Assignments out2.
Proof.
  rewrite !format_spec. simpl. destruct (usable solverSolution).
  - rewrite collect_properties_app.
    destruct (collect_properties _ _ _ (Properties input)) as [l1|e1].
    + destruct (collect_properties _ _ _ more) as [l2|e2].
      * split.
        -- intros [= <-]. by eexists _, _.
        -- intros (o1 & o2 & [= <-] & [= <-] & Ho). destruct out. simpl in Ho.
           by rewrite Ho.
      * split; [done|]. by intros (o1 & o2 & _ & ? & _).
    + split; [done|]. by intros (o1 & o2 & ? & _).
  - split.
    + intros [= <-]. by eexists _, _.
    + intros (o1 & o2 & [= <-] & [= <-] & Ho). destruct out. simpl in Ho.
      by rewrite Ho.
Qed.

End FormatMore.

(** * Further properties of [solver] *)

Section SolverMore.
Variable int_overflow : float64 -> Z.
Variables error Solver SolveOptions Statistics CustomResultStatistics : Type.
Variable mip_NewSolver : string -> mip.Model -> Solver + error.
Variable mip_NewSolveOptions : SolveOptions.
Variable SetMaximumDuration : Z -> SolveOptions -> SolveOptions * option error.
Variable SetMIPGapRelative : float64 -> SolveOptions -> SolveOptions * option error.
Variable SetVerbosity : mip.Verbosity -> SolveOptions -> SolveOptions.
Variable Solve : Solver -> SolveOptions -> mip.Solution + error.
Variable mip_Format : options -> solution -> mip.Solution -> schema.Output Statistics.
Variable mip_DefaultCustomResultStatistics :
  mip.Model -> mip.Solution -> CustomResultStatistics.
Variable set_Result_Custom : Statistics -> CustomResultStatistics -> result Statistics.

#[local] Abbreviation solver_ :=
  (solver int_overflow error Solver SolveOptions Statistics CustomResultStatistics
          mip_NewSolver mip_NewSolveOptions SetMaximumDuration SetMIPGapRelative
          SetVerbosity Solve mip_Format mip_DefaultCustomResultStatistics
          set_Result_Custom).
#[local] Abbreviation failure_ :=
  (failure error Solver SolveOptions mip_NewSolver mip_NewSolveOptions
           SetMaximumDuration SetMIPGapRelative SetVerbosity Solve).
#[local] Abbreviation set_Custom_ :=
  (set_Custom Statistics CustomResultStatistics set_Result_Custom).

(** The outcomes of [solver], by the answers of the solver engine. *)
Lemma solver_cases (input : input) (options : options) :
  solver_ input options [] =
  match mip_NewSolver "highs" (model_of input) with
  | inr err => Ok ((schema.zero, Some err), [call_NewSolver])
  | inl s =>
      match SetMaximumDuration (mip.Duration (Limits options)) mip_NewSolveOptions with
      | (_, Some err) =>
          Ok ((schema.zero, Some err), [call_NewSolver; call_SetMaximumDuration])
      | (o1, None) =>
          match SetMIPGapRelative (Float64.of_int 0) o1 with
          | (_, Some err) =>
              Ok ((schema.zero, Some err),
                  [call_NewSolver; call_SetMaximumDuration; call_SetMIPGapRelative])
          | (o2, None) =>
              match Solve s (SetVerbosity mip.Off o2) with
              | inr err =>
                  Ok ((schema.zero, Some err),
                      [call_NewSolver; call_SetMaximumDuration; call_SetMIPGapRelative;
                       call_Solve])
              | inl solution =>
                  match format int_overflow input solution (index_of input) with
                  | Panic p => Panic p
                  | Ok plan =>
                      match set_Custom_ (mip_Format options plan solution)
                              (mip_DefaultCustomResultStatistics (model_of input) solution)
                      with
                      | Panic p => Panic p
                      | Ok out => Ok ((out, None), all_calls)
                      end
                  end
              end
          end
      end
  end.
Proof.
  unfold solver. rewrite build_spec.
  erewrite bind_ok by reflexivity. cbn [fst snd].
  erewrite bind_ok by reflexivity.
  destruct (mip_NewSolver _ _) as [s|err]; [|done].
  erewrite bind_ok by reflexivity.
  destruct (SetMaximumDuration _ _) as [o1 [err|]]; [done|].
  erewrite bind_ok by reflexivity.
  destruct (SetMIPGapRelative _ _) as [o2 [err|]]; [done|].
  erewrite bind_ok by reflexivity.
  destruct (Solve _ _) as [solution|err]; [|done].
  erewrite bind_ok by reflexivity.
  destruct (format _ _ _ _) as [plan|p]; [|done].
  erewrite bind_ok by reflexivity.
  by destruct (set_Custom_ _ _) as [out|p].
Qed.

(** X14. An error [solver] returns is the error a call to the solver
    engine returned: [solver] makes no error of its own, and with an error
    the output is the zero output. *)
Theorem solver_error_origin (input : input) (options : options)
    (out : schema.Output Statistics) (err : error) (calls : list call) :
  solver_ input options [] = Ok ((out, Some err), calls) ->
  failure_ input options err calls /\ out = schema.zero.
Proof.
  rewrite solver_cases.
  pose proof (build_spec input) as Hb.
  destruct (mip_NewSolver _ _) as [s|e] eqn:Hn.
  2:{ intros [= <- <- <-]. split; [|done]. by eapply failure_NewSolver. }
  destruct (SetMaximumDuration _ _) as [o1 [e|]] eqn:Hd.
  { intros [= <- <- <-]. split; [|done]. by eapply failure_SetMaximumDuration. }
  destruct (SetMIPGapRelative _ _) as [o2 [e|]] eqn:Hg.
  { intros [= <- <- <-]. split; [|done]. by eapply failure_SetMIPGapRelative. }
  destruct (Solve _ _) as [solution|e] eqn:Hs.
  2:{ intros [= <- <- <-]. split; [|done]. by eapply failure_Solve. }
  destruct (format _ _ _ _) as [plan|p]; [|done].
  by destruct (set_Custom_ _ _).
Qed.

(** X15. When [solver] returns the nil error, every call to the solver
    engine succeeded, [solver] made the five calls once each in order,
    [format] last, and the output is the one [mip.Format] made of the
    solution of [format], with the custom statistics set. *)
Theorem solver_nil_error (input : input) (options : options)
    (out : schema.Output Statistics) (calls : list call) :
  solver_ input options [] = Ok ((out, None), calls) ->
  calls = all_calls /\
  exists m vars s o1 o2 solution plan,
    build input = Ok (m, vars) /\
    mip_NewSolver "highs" m = inl s /\
    SetMaximumDuration (mip.Duration (Limits options)) mip_NewSolveOptions = (o1, None) /\
    SetMIPGapRelative (Float64.of_int 0) o1 = (o2, None) /\
    Solve s (SetVerbosity mip.Off o2) = inl solution /\
    format int_overflow input solution vars = Ok plan /\
    set_Custom_ (mip_Format options plan solution)
                (mip_DefaultCustomResultStatistics m solution) = Ok out.
Proof.
  rewrite solver_cases.
  destruct (mip_NewSolver _ _) as [s|e] eqn:Hn; [|done].
  destruct (SetMaximumDuration _ _) as [o1 [e|]] eqn:Hd; [done|].
  destruct (SetMIPGapRelative _ _) as [o2 [e|]] eqn:Hg; [done|].
  destruct (Solve _ _) as [solution|e] eqn:Hs; [|done].
  destruct (format _ _ _ _) as [plan|p] eqn:Hf; [|done].
  destruct (set_Custom_ _ _) as [out'|p] eqn:Hc; [|done].
  intros [= <- <-]. split; [done|].
  exists (model_of input), (index_of input), s, o1, o2, solution, plan.
  split_and!; try done. apply build_spec.
Qed.

(** X16. With unique IDs and a reporting layer that attaches statistics,
    [solver] does not panic: neither the builder nor [format] does,
    whatever the solver engine answers. *)
Theorem solver_returns (input : input) (options : options) :
  unique_ids input ->
  (forall plan solution, is_Some (schema.Statistics_ (mip_Format options plan solution))) ->
  (forall st custom, exists st', set_Result_Custom st custom = Ok st') ->
  exists out err calls, solver_ input options [] = Ok ((out, err), calls).
Proof.
  intros Hu Hst Hset. rewrite solver_cases.
  destruct (mip_NewSolver _ _) as [s|e]; [|by eauto].
  destruct (SetMaximumDuration _ _) as [o1 [e|]]; [by eauto|].
  destruct (SetMIPGapRelative _ _) as [o2 [e|]]; [by eauto|].
  destruct (Solve _ _) as [solution|e]; [|by eauto].
  assert (exists plan, format int_overflow input solution (index_of input) = Ok plan)
    as [plan ->].
  { destruct (usable solution) eqn:Hus.
    - rewrite format_covered by auto using index_of_covers. by eauto.
    - rewrite format_unusable by done. by eauto. }
  unfold set_Custom.
  destruct (Hst plan solution) as [st ->].
  destruct (Hset st (mip_DefaultCustomResultStatistics (model_of input) solution))
    as [st' ->].
  by eauto.
Qed.

End SolverMore.

(** * The builder and the formatter together *)

Section RoundTrip.
Variable int_overflow : float64 -> Z.

Lemma collect_properties_no_renovations solverSolution vars ps :
  Forall (fun p => Property.Renovations p = []) ps ->
  collect_properties int_overflow solverSolution vars ps = Ok [].
Proof.
  induction 1 as [|p ps Hp _ IH]; [done|].
  cbn [collect_properties]. by rewrite Hp, IH.
Qed.

(** X17. [format] does not look a property without renovations up in the
    map: for an input whose properties have no renovations, also one
    without properties, it returns the solution without assignments for
    every solver result and every map, the empty one included. *)
Theorem format_no_renovations (input : input) (solverSolution : mip.Solution)
    (vars : gmap string (list mip.Var)) :
  Forall (fun p => Property.Renovations p = []) (Properties input) ->
  format int_overflow input solverSolution vars = Ok {| Assignments := [] |}.
Proof.
  intros Hps. rewrite format_spec. destruct (usable solverSolution); [|done].
  by rewrite collect_properties_no_renovations.
Qed.

(** X18. With unique IDs and a usable solver result, [format] applied to
    the map of the builder returns the records of exactly the pairs whose
    own variable, the one the builder created for the pair, has a value
    that rounds to 1 or more. *)
Theorem format_of_build (input : input) (solverSolution : mip.Solution)
    (m : mip.Model) (vars : gmap string (list mip.Var)) :
  build input = Ok (m, vars) ->
  unique_ids input ->
  usable solverSolution = true ->
  exists out,
    format int_overflow input solverSolution vars = Ok out /\
    Some <$> Assignments out =
      assignment_at input <$> selected_positions int_overflow solverSolution vars input /\
    forall i j,
      (i, j) ∈ selected_positions int_overflow solverSolution vars input <->
      exists p r,
        Properties input !! i = Some p /\ Property.Renovations p !! j = Some r /\
        1 <= rounded int_overflow
               (mip.Values solverSolution (offset (Properties input) i + j)%nat).
Proof.
  intros Hb Hu Hus. rewrite build_spec in Hb. injection Hb as <- <-.
  eexists. split; [apply format_covered; auto using index_of_covers|].
  split; [apply selected_assignments_positions|].
  intros i j. rewrite elem_of_selected_positions. unfold is_selected.
  split; intros (p & r & Hp & Hr & Hs); exists p, r; (split_and!; [done..|]);
    rewrite (var_of_index_of_unique input i p j r Hu Hp Hr) in *; lia.
Qed.

End RoundTrip.

(** * The further properties at concrete inputs *)

(** X1 at two properties: the entry of "P2" holds the variables 3 and 4,
    those of the second property. *)
Lemma build_map_invariant_witness :
  exists i p,
    Properties two_properties !! i = Some p /\ Property.ID p = "P2"%string /\
    [mip.bool_Var 3; mip.bool_Var 4] =
      vars_of (offset (Properties two_properties) i) (length (Property.Renovations p)).
Proof.
  destruct (build_map_invariant two_properties (model_of two_properties)
              (index_of two_properties)) as (_ & Hentries & _).
  - vm_compute. reflexivity.
  - destruct (Hentries "P2"%string [mip.bool_Var 3; mip.bool_Var 4]) as [Hentry _].
    + vm_compute. reflexivity.
    + exact Hentry.
Defined.

(** X2 at the second renovation of the second of two properties. *)
Lemma build_map_round_trip_witness :
  exists k,
    slice_index (index_of two_properties) "P2" 1 = Ok (mip.bool_Var k) /\
    mip.ObjectiveTerms (mip.TheObjective (model_of two_properties)) !! k =
      Some {| mip.Coefficient := Float64.of_int 1; mip.TermVar := mip.bool_Var k |}.
Proof.
  destruct (build_map_round_trip two_properties (model_of two_properties)
              (index_of two_properties) 1 1 property_B (renovation "r2" 1 1))
    as (k & budget & count & Hk & Hobj & _).
  - vm_compute. reflexivity.
  - apply (bool_decide_unpack _). vm_compute. reflexivity.
  - reflexivity.
  - reflexivity.
  - exists k. split; [exact Hk | exact Hobj].
Defined.

(** X3 at scenario A. *)
Lemma build_model_ok_witness : model_ok (model_of scenario_A).
Proof.
  apply (build_model_ok scenario_A (model_of scenario_A) (index_of scenario_A)).
  vm_compute. reflexivity.
Defined.

(** X4 at scenario A, followed by a second property. *)
Lemma build_extend_witness :
  mip.Vars (model_of two_properties) = (mip.Vars (model_of scenario_A) + 2)%nat /\
  mip.ObjectiveTerms (mip.TheObjective (model_of scenario_A))
    `prefix_of` mip.ObjectiveTerms (mip.TheObjective (model_of two_properties)).
Proof.
  destruct (build_extend scenario_A [property_B]
              (model_of scenario_A) (model_of two_properties)
              (index_of scenario_A) (index_of two_properties))
    as (Hv & Hobj & _).
  - vm_compute. reflexivity.
  - vm_compute. reflexivity.
  - split; [exact Hv | exact Hobj].
Defined.

(** X5 at scenario A. *)
Lemma build_zero_feasible_witness :
  feasible amd64_overflow (model_of scenario_A) solution_none = true.
Proof.
  apply (build_zero_feasible amd64_overflow solution_none scenario_A
           (model_of scenario_A) (index_of scenario_A)).
  - vm_compute. reflexivity.
  - vm_compute. discriminate.
  - intros k _. reflexivity.
Defined.

(** X6 at scenario A with the budget -1. *)
Lemma build_negative_budget_infeasible_witness :
  feasible amd64_overflow (model_of negative_budget) solution_all = false.
Proof.
  apply (build_negative_budget_infeasible amd64_overflow solution_all negative_budget
           (model_of negative_budget) (index_of negative_budget)).
  - vm_compute. reflexivity.
  - simpl. lia.
  - vm_compute. reflexivity.
Defined.

(** X7 at scenario A: the plan costs 9, the budget is 10. *)
Lemma format_within_budget_witness :
  (total assignments.Cost (Assignments plan_A) <= inject_Z 10)%Q.
Proof.
  destruct (format_within_budget amd64_overflow solution_A scenario_A
              (model_of scenario_A) (index_of scenario_A) plan_A) as [_ Hle].
  - vm_compute. reflexivity.
  - apply (bool_decide_unpack _). vm_compute. reflexivity.
  - reflexivity.
  - vm_compute. reflexivity.
  - vm_compute. reflexivity.
  - apply Hle. simpl. lia.
Defined.

(** X8 at scenario A: the plan has the effect 8. *)
Lemma format_total_effect_witness :
  (total assignments.Effect (Assignments plan_A)
   == objective_value amd64_overflow solution_A (model_of scenario_A))%Q.
Proof.
  apply (format_total_effect amd64_overflow solution_A scenario_A
           (model_of scenario_A) (index_of scenario_A) plan_A).
  - vm_compute. reflexivity.
  - apply (bool_decide_unpack _). vm_compute. reflexivity.
  - reflexivity.
  - vm_compute. reflexivity.
  - vm_compute. reflexivity.
Defined.

(** X9 at scenario A: another budget and other values that round alike. *)
Lemma format_reads_only_witness :
  format amd64_overflow scenario_A solution_A (index_of scenario_A) =
  format amd64_overflow negative_budget solution_A' (index_of scenario_A).
Proof.
  apply (format_reads_only amd64_overflow scenario_A negative_budget
           solution_A solution_A' (index_of scenario_A) (index_of scenario_A)).
  - reflexivity.
  - reflexivity.
  - reflexivity.
  - intros p j _ _. reflexivity.
  - intros p j k Hp Hj Hk. apply list_elem_of_singleton in Hp. subst p.
    destruct j as [|[|[|j]]]; simpl in Hj; [| | |lia];
      vm_compute in Hk; injection Hk as <-; reflexivity.
Defined.

(** X10 at scenario A, every variable with the value 1. *)
Lemma format_all_selected_witness :
  format amd64_overflow scenario_A solution_all (index_of scenario_A) =
  Ok {| Assignments := all_assignments scenario_A |}.
Proof.
  apply (format_all_selected amd64_overflow scenario_A solution_all
           (index_of scenario_A)).
  - reflexivity.
  - vm_compute. reflexivity.
  - intros p j k _ _. vm_compute. discriminate.
Defined.


(** X12 at scenario A with a map that has no entry for its property. *)
Lemma format_missing_key_witness :
  format amd64_overflow scenario_A solution_A other_map = Panic IndexOutOfRange.
Proof.
  destruct (format_missing_key amd64_overflow scenario_A solution_A other_map)
    as [_ Hmissing].
  - intros id l Hl Hnil. unfold other_map in Hl.
    apply lookup_singleton_Some in Hl as [_ <-].
    apply list_elem_of_singleton in Hnil. discriminate Hnil.
  - apply (Hmissing eq_refl property_A).
    + apply list_elem_of_here.
    + discriminate.
    + reflexivity.
Defined.

(** X14 with a solver engine whose solve fails. *)
Lemma solver_error_origin_witness :
  failure string unit unit any_provider tt accepted accepted (fun _ o => o)
          failing_Solve scenario_A default_options "solve failed"%string
          [call_NewSolver; call_SetMaximumDuration; call_SetMIPGapRelative; call_Solve].
Proof.
  destruct (solver_error_origin amd64_overflow string unit unit unit unit
              any_provider tt accepted accepted (fun _ o => o) failing_Solve
              reporting (fun _ _ => tt) (fun st _ => Ok st)
              scenario_A default_options schema.zero "solve failed"%string
              [call_NewSolver; call_SetMaximumDuration; call_SetMIPGapRelative;
               call_Solve]) as [Hfail _].
  - vm_compute. reflexivity.
  - exact Hfail.
Defined.

(** X15 with a solver engine that answers scenario A with [solution_A]. *)
Lemma solver_nil_error_witness :
  exists m vars plan,
    build scenario_A = Ok (m, vars) /\
    set_Custom unit unit (fun st _ => Ok st) (reporting default_options plan solution_A)
               tt =
    Ok {| schema.Solutions := [plan_A]; schema.Statistics_ := Some tt |}.
Proof.
  destruct (solver_nil_error amd64_overflow string unit unit unit unit
              any_provider tt accepted accepted (fun _ o => o) solving_A
              reporting (fun _ _ => tt) (fun st _ => Ok st)
              scenario_A default_options
              {| schema.Solutions := [plan_A]; schema.Statistics_ := Some tt |}
              all_calls)
    as (_ & m & vars & s & o1 & o2 & solution & plan & Hb & _ & _ & _ & Hs & _ & Hc).
  - vm_compute. reflexivity.
  - injection Hs as <-. exists m, vars, plan. split; [exact Hb | exact Hc].
Defined.

(** X16 at two properties with different IDs. *)
Lemma solver_returns_witness :
  exists out err calls,
    solver amd64_overflow string unit unit unit unit
           any_provider tt accepted accepted (fun _ o => o) solving_A
           reporting (fun _ _ => tt) (fun st _ => Ok st)
           two_properties default_options []
    = Ok ((out, err), calls).
Proof.
  apply (solver_returns amd64_overflow string unit unit unit unit
           any_provider tt accepted accepted (fun _ o => o) solving_A
           reporting (fun _ _ => tt) (fun st _ => Ok st)).
  - apply (bool_decide_unpack _). vm_compute. reflexivity.
  - intros plan solution. exists tt. reflexivity.
  - intros st custom. exists st. reflexivity.
Defined.

(** X17 at an input with one property without renovations and the empty
    map. *)
Lemma format_no_renovations_witness :
  format amd64_overflow
         {| Properties := [{| Property.ID := "P1"; Property.Renovations := [] |}];
            Budget := 10 |}
         solution_all ∅
  = Ok {| Assignments := [] |}.
Proof.
  apply (format_no_renovations amd64_overflow).
  repeat constructor.
Defined.

(** X18 at scenario A: the positions of r1 and r2. *)
Lemma format_of_build_witness :
  exists out,
    format amd64_overflow scenario_A solution_A (index_of scenario_A) = Ok out /\
    Some <$> Assignments out = assignment_at scenario_A <$> [(0, 0); (0, 1)]%nat.
Proof.
  destruct (format_of_build amd64_overflow scenario_A solution_A
              (model_of scenario_A) (index_of scenario_A))
    as (out & Hout & Hpos & _).
  - vm_compute. reflexivity.
  - apply (bool_decide_unpack _). vm_compute. reflexivity.
  - reflexivity.
  - exists out. split; [exact Hout | exact Hpos].
Defined.
